(** * Block construction: a shallow embedding of [index.js]

    The development follows the source file top to bottom: the record
    types, the little-endian codec ([iTo16b], [iTo32b], [ito64b],
    [serInt]), the two transaction serializers, the header serializer,
    the Merkle tree, the nonce search and the transaction selector
    ([prioritize]).

    Conventions of the embedding.
    - A [Buffer] is a [list Z] of octets (each in [0, 255]).
    - A JavaScript exception is the [Throw] outcome of [result]; the
      [OutOfFuel] outcome only exists because loops are run on fuel, and
      the theorems below show it is never reached with the stated fuel.
    - Integers read from JSON (values, indices, versions) are [Z].
    - The three floating-point quantities of [prioritize] (the reward,
      the fee-per-weight ratios and the comparator's result) are modelled
      by exact rationals extended with the IEEE special values, see
      [num]; rounding is not modelled.
    - [sha] is SHA-256 (FIPS 180-4), which is what
      [crypto.createHash("sha256")] computes. *)

From Stdlib Require Import ZArith QArith Lqa List String Ascii Bool Lia.
From Stdlib Require Import Permutation Sorted.
Import ListNotations.
Open Scope string_scope.
Open Scope list_scope.
Open Scope Z_scope.

(** ** Outcomes of a call *)

Inductive error : Type :=
| RangeError        (* ERR_OUT_OF_RANGE of the Buffer write methods *)
| TypeError         (* property access on null / undefined *)
| NotSameLength.    (* [new Error("Not same length")] of [compArrays] *)

Inductive result (A : Type) : Type :=
| Ok (a : A)
| Throw (e : error)
| OutOfFuel.

Arguments Ok {A} a.
Arguments Throw {A} e.
Arguments OutOfFuel {A}.

Definition bind {A B : Type} (r : result A) (k : A -> result B) : result B :=
  match r with
  | Ok a => k a
  | Throw e => Throw e
  | OutOfFuel => OutOfFuel
  end.

Notation "x <- r ;; k" := (bind r (fun x => k))
  (at level 61, r at next level, right associativity).

Definition bytes : Type := list Z.

(** ** Hexadecimal strings: [Buffer.from(s, "hex")] and [buf.toString("hex")] *)

Definition hex_digit (c : ascii) : option Z :=
  let n := Z.of_nat (nat_of_ascii c) in
  if (48 <=? n) && (n <=? 57) then Some (n - 48)
  else if (97 <=? n) && (n <=? 102) then Some (n - 87)
  else if (65 <=? n) && (n <=? 70) then Some (n - 55)
  else None.

(** Decoding stops at the first pair that is not two hexadecimal digits;
    a trailing single character is dropped. *)
Fixpoint from_hex (s : string) : bytes :=
  match s with
  | String c1 (String c2 rest) =>
      match hex_digit c1, hex_digit c2 with
      | Some h, Some l => (16 * h + l) :: from_hex rest
      | _, _ => []
      end
  | _ => []
  end.

Definition hex_char (n : Z) : ascii :=
  if n <? 10 then ascii_of_nat (Z.to_nat (48 + n))
  else ascii_of_nat (Z.to_nat (87 + n)).

Fixpoint to_hex (b : bytes) : string :=
  match b with
  | [] => EmptyString
  | x :: rest => String (hex_char (x / 16)) (String (hex_char (x mod 16)) (to_hex rest))
  end.

(** ** SHA-256 *)

Module SHA256.

Definition mask32 : Z := 4294967295.
Definition add32 (x y : Z) : Z := (x + y) mod 4294967296.
Definition rotr (n x : Z) : Z :=
  Z.lor (Z.shiftr x n) (Z.land (Z.shiftl x (32 - n)) mask32).
Definition not32 (x : Z) : Z := Z.lxor x mask32.

Definition Ch (x y z : Z) := Z.lxor (Z.land x y) (Z.land (not32 x) z).
Definition Maj (x y z : Z) :=
  Z.lxor (Z.lxor (Z.land x y) (Z.land x z)) (Z.land y z).
Definition Sum0 (x : Z) := Z.lxor (Z.lxor (rotr 2 x) (rotr 13 x)) (rotr 22 x).
Definition Sum1 (x : Z) := Z.lxor (Z.lxor (rotr 6 x) (rotr 11 x)) (rotr 25 x).
Definition sig0 (x : Z) := Z.lxor (Z.lxor (rotr 7 x) (rotr 18 x)) (Z.shiftr x 3).
Definition sig1 (x : Z) := Z.lxor (Z.lxor (rotr 17 x) (rotr 19 x)) (Z.shiftr x 10).

Definition round_constants : list Z := map (fun s => fold_left (fun acc b => 256 * acc + b) (from_hex s) 0)
  [ "428a2f98"; "71374491"; "b5c0fbcf"; "e9b5dba5";
    "3956c25b"; "59f111f1"; "923f82a4"; "ab1c5ed5";
    "d807aa98"; "12835b01"; "243185be"; "550c7dc3";
    "72be5d74"; "80deb1fe"; "9bdc06a7"; "c19bf174";
    "e49b69c1"; "efbe4786"; "0fc19dc6"; "240ca1cc";
    "2de92c6f"; "4a7484aa"; "5cb0a9dc"; "76f988da";
    "983e5152"; "a831c66d"; "b00327c8"; "bf597fc7";
    "c6e00bf3"; "d5a79147"; "06ca6351"; "14292967";
    "27b70a85"; "2e1b2138"; "4d2c6dfc"; "53380d13";
    "650a7354"; "766a0abb"; "81c2c92e"; "92722c85";
    "a2bfe8a1"; "a81a664b"; "c24b8b70"; "c76c51a3";
    "d192e819"; "d6990624"; "f40e3585"; "106aa070";
    "19a4c116"; "1e376c08"; "2748774c"; "34b0bcb5";
    "391c0cb3"; "4ed8aa4a"; "5b9cca4f"; "682e6ff3";
    "748f82ee"; "78a5636f"; "84c87814"; "8cc70208";
    "90befffa"; "a4506ceb"; "bef9a3f7"; "c67178f2" ]%string.

Definition state : Type := (Z * Z * Z * Z * Z * Z * Z * Z)%type.

Definition initial : state :=
  (1779033703, 3144134277, 1013904242, 2773480762,
   1359893119, 2600822924, 528734635, 1541459225).

(** Big-endian words of a block. *)
Fixpoint words (b : bytes) : list Z :=
  match b with
  | b3 :: b2 :: b1 :: b0 :: rest =>
      (((b3 * 256 + b2) * 256 + b1) * 256 + b0) :: words rest
  | _ => []
  end.

(** The message schedule: [n] further words appended to [W]. *)
Fixpoint extend (n : nat) (W : list Z) : list Z :=
  match n with
  | O => W
  | S n' =>
      let t := List.length W in
      let w := add32 (add32 (add32 (sig1 (nth (t - 2) W 0)) (nth (t - 7) W 0))
                            (sig0 (nth (t - 15) W 0)))
                     (nth (t - 16) W 0) in
      extend n' (W ++ [w])
  end.

Definition round (s : state) (kw : Z * Z) : state :=
  let '(a, b, c, d, e, f, g, h) := s in
  let t1 := add32 (add32 (add32 (add32 h (Sum1 e)) (Ch e f g)) (fst kw)) (snd kw) in
  let t2 := add32 (Sum0 a) (Maj a b c) in
  (add32 t1 t2, a, b, c, add32 d t1, e, f, g).

Definition compress (s : state) (block : bytes) : state :=
  let W := extend 48 (words block) in
  let '(a, b, c, d, e, f, g, h) := fold_left round (combine round_constants W) s in
  let '(a0, b0, c0, d0, e0, f0, g0, h0) := s in
  (add32 a0 a, add32 b0 b, add32 c0 c, add32 d0 d,
   add32 e0 e, add32 f0 f, add32 g0 g, add32 h0 h).

Definition be_bytes (n : nat) (x : Z) : bytes :=
  map (fun i => (Z.shiftr x (8 * Z.of_nat i)) mod 256) (rev (seq 0 n)).

Definition pad (msg : bytes) : bytes :=
  let len := Z.of_nat (List.length msg) in
  msg ++ [128] ++ repeat 0 (Z.to_nat ((55 - len) mod 64)) ++ be_bytes 8 (8 * len).

Fixpoint blocks (fuel : nat) (b : bytes) : list bytes :=
  match fuel, b with
  | S fuel', _ :: _ => firstn 64 b :: blocks fuel' (skipn 64 b)
  | _, _ => []
  end.

Definition digest_of (s : state) : bytes :=
  let '(a, b, c, d, e, f, g, h) := s in
  [ Z.shiftr a 24; Z.shiftr a 16 mod 256; Z.shiftr a 8 mod 256; a mod 256;
    Z.shiftr b 24; Z.shiftr b 16 mod 256; Z.shiftr b 8 mod 256; b mod 256;
    Z.shiftr c 24; Z.shiftr c 16 mod 256; Z.shiftr c 8 mod 256; c mod 256;
    Z.shiftr d 24; Z.shiftr d 16 mod 256; Z.shiftr d 8 mod 256; d mod 256;
    Z.shiftr e 24; Z.shiftr e 16 mod 256; Z.shiftr e 8 mod 256; e mod 256;
    Z.shiftr f 24; Z.shiftr f 16 mod 256; Z.shiftr f 8 mod 256; f mod 256;
    Z.shiftr g 24; Z.shiftr g 16 mod 256; Z.shiftr g 8 mod 256; g mod 256;
    Z.shiftr h 24; Z.shiftr h 16 mod 256; Z.shiftr h 8 mod 256; h mod 256 ].

Definition hash (msg : bytes) : bytes :=
  let p := pad msg in
  digest_of (fold_left compress (blocks (List.length p) p) initial).

End SHA256.

(** [sha(data)]: one application of SHA-256. *)
Definition sha (data : bytes) : bytes := SHA256.hash data.

(** [sha(sha(x))], the only hash the program uses. *)
Definition doubleHash (data : bytes) : bytes := sha (sha data).

(** ** Structure definitions *)

Module BlockHeader.
Record t : Type := mk {
  version : Z;
  prev_block_hash : string;
  merkle_root : string;
  timestamp : Z;
  bits : Z;
  nonce : Z }.
End BlockHeader.
Abbreviation BlockHeader := BlockHeader.t.

Module Prevout.
Record t : Type := mk {
  scriptpubkey : string;
  scriptpubkey_asm : string;
  scriptpubkey_type : string;
  value : Z;
  scriptpubkey_address : option string }.
End Prevout.
Abbreviation Prevout := Prevout.t.

Module Input.
Record t : Type := mk {
  txid : string;
  vout : Z;
  prevout : Prevout;
  scriptsig : string;
  scriptsig_asm : string;
  witness : list string;
  is_coinbase : bool;
  sequence : Z }.
End Input.
Abbreviation Input := Input.t.

Module Transaction.
Record t : Type := mk {
  version : Z;
  locktime : Z;
  vin : list Input;
  vout : list Prevout }.
End Transaction.
Abbreviation Transaction := Transaction.t.

Module TxInfo.
Record t : Type := mk {
  txid : string;
  wtxid : string;
  fee : Z;
  weight : Z }.
End TxInfo.
Abbreviation TxInfo := TxInfo.t.

(** A node owns its children; [None] is JavaScript's [null]. *)
#[local] Set Warnings "-register-all".
Inductive MerkleNode : Type :=
| mkMerkleNode (left : option MerkleNode) (data : bytes) (right : option MerkleNode).

Definition node_left (n : MerkleNode) : option MerkleNode :=
  let 'mkMerkleNode l _ _ := n in l.
Definition node_data (n : MerkleNode) : bytes :=
  let 'mkMerkleNode _ d _ := n in d.
Definition node_right (n : MerkleNode) : option MerkleNode :=
  let 'mkMerkleNode _ _ r := n in r.

(** ** Codec *)

(** The [n] low-order octets of [x], least significant first. *)
Definition le_bytes (n : nat) (x : Z) : bytes :=
  map (fun i => Z.shiftr x (8 * Z.of_nat i) mod 256) (seq 0 n).

(** [writeUInt16LE], [writeUInt32LE] and [writeBigUInt64LE] raise
    ERR_OUT_OF_RANGE when the value does not fit the field. *)
Definition iTo16b (n : Z) : result bytes :=
  if (0 <=? n) && (n <=? 65535) then Ok (le_bytes 2 n) else Throw RangeError.

Definition iTo32b (n : Z) : result bytes :=
  if (0 <=? n) && (n <=? 4294967295) then Ok (le_bytes 4 n) else Throw RangeError.

Definition ito64b (n : Z) : result bytes :=
  if (0 <=? n) && (n <=? 18446744073709551615) then Ok (le_bytes 8 n)
  else Throw RangeError.

(** [Buffer.from([n])] stores the array entry modulo 256. *)
Definition serInt (n : Z) : result bytes :=
  if n <? 253 then Ok [n mod 256]
  else if n <=? 65535 then b <- iTo16b n ;; Ok ([253] ++ b)
  else if n <=? 4294967295 then b <- iTo32b n ;; Ok ([254] ++ b)
  else b <- ito64b n ;; Ok ([255] ++ b).

(** A [for (const x of xs)] loop whose body may throw. *)
Fixpoint for_of {A S : Type} (xs : list A) (body : S -> A -> result S) (s : S)
  : result S :=
  match xs with
  | [] => Ok s
  | x :: rest => s' <- body s x ;; for_of rest body s'
  end.

Definition len {A : Type} (l : list A) : Z := Z.of_nat (List.length l).

Fixpoint chkSegwit_vin (vin : list Input) : bool :=
  match vin with
  | [] => false
  | v :: rest => if len (Input.witness v) >? 0 then true else chkSegwit_vin rest
  end.

Definition chkSegwit (tx : Transaction) : bool := chkSegwit_vin (Transaction.vin tx).

Definition reversebyte (data : bytes) : bytes := rev data.

(** [compArrays] returns -1, 0 or 1. *)
Fixpoint compArrays_from (a b : bytes) : Z :=
  match a, b with
  | x :: a', y :: b' =>
      if x <? y then -1 else if x >? y then 1 else compArrays_from a' b'
  | _, _ => 0
  end.

Definition compArrays (a b : bytes) : result Z :=
  if negb (len a =? len b) then Throw NotSameLength
  else Ok (compArrays_from a b).

(** ** Transaction serialization

    The fields of an [Input] are strings, so [Buffer.from(_, "hex")]
    cannot fail and the [try]/[catch] around the script decoding of
    [serTransactions] is never entered. *)

Definition serTransactions_vin (serialdat : bytes) (vin : Input) : result bytes :=
  let serialdat := serialdat ++ reversebyte (from_hex (Input.txid vin)) in
  b <- iTo32b (Input.vout vin) ;;
  let serialdat := serialdat ++ b in
  let scriptsigBytes := from_hex (Input.scriptsig vin) in
  let lenScript := len scriptsigBytes in
  b <- serInt lenScript ;;
  let serialdat := serialdat ++ b in
  let serialdat := serialdat ++ scriptsigBytes in
  b <- iTo32b (Input.sequence vin) ;;
  Ok (serialdat ++ b).

Definition serTransactions_vout (serialdat : bytes) (vout : Prevout) : result bytes :=
  b <- ito64b (Prevout.value vout) ;;
  let serialdat := serialdat ++ b in
  let pubkeyB := from_hex (Prevout.scriptpubkey vout) in
  let pubkeyLen := len pubkeyB in
  b <- serInt pubkeyLen ;;
  let serialdat := serialdat ++ b in
  Ok (serialdat ++ pubkeyB).

Definition serTransactions (tx : Transaction) : result bytes :=
  let serialdat := [] in
  b <- iTo32b (Transaction.version tx) ;;
  let serialdat := serialdat ++ b in
  b <- serInt (len (Transaction.vin tx)) ;;
  let serialdat := serialdat ++ b in
  serialdat <- for_of (Transaction.vin tx) serTransactions_vin serialdat ;;
  b <- serInt (len (Transaction.vout tx)) ;;
  let serialdat := serialdat ++ b in
  serialdat <- for_of (Transaction.vout tx) serTransactions_vout serialdat ;;
  b <- iTo32b (Transaction.locktime tx) ;;
  Ok (serialdat ++ b).

Definition baseSize (tx : Transaction) : result Z :=
  serialized <- serTransactions tx ;;
  Ok (len serialized).

Definition segwitSerialize_vin (serial : bytes) (vin : Input) : result bytes :=
  let serial := serial ++ reversebyte (from_hex (Input.txid vin)) in
  b <- iTo32b (Input.vout vin) ;;
  let serial := serial ++ b in
  let pubkeyB := from_hex (Input.scriptsig vin) in
  let scripLen := len pubkeyB in
  b <- serInt scripLen ;;
  let serial := serial ++ b in
  let serial := serial ++ pubkeyB in
  b <- iTo32b (Input.sequence vin) ;;
  Ok (serial ++ b).

Definition segwitSerialize_vout (serial : bytes) (vout : Prevout) : result bytes :=
  b <- ito64b (Prevout.value vout) ;;
  let serial := serial ++ b in
  let pubkeyScript := from_hex (Prevout.scriptpubkey vout) in
  let scriptpubkeyLen := len pubkeyScript in
  b <- serInt scriptpubkeyLen ;;
  let serial := serial ++ b in
  Ok (serial ++ pubkeyScript).

Definition witness_item (serial : bytes) (witness : string) : result bytes :=
  let wtBytes := from_hex witness in
  let witLen := len wtBytes in
  b <- serInt witLen ;;
  let serial := serial ++ b in
  Ok (serial ++ wtBytes).

Definition witness_stack (serial : bytes) (vin : Input) : result bytes :=
  let wtCount := len (Input.witness vin) in
  b <- serInt wtCount ;;
  let serial := serial ++ b in
  for_of (Input.witness vin) witness_item serial.

Definition segwitSerialize (tx : Transaction) : result bytes :=
  let serial := [] in
  let isSegwit := chkSegwit tx in
  b <- iTo32b (Transaction.version tx) ;;
  let serial := serial ++ b in
  let serial := if isSegwit then serial ++ [0; 1] else serial in
  b <- serInt (len (Transaction.vin tx)) ;;
  let serial := serial ++ b in
  serial <- for_of (Transaction.vin tx) segwitSerialize_vin serial ;;
  b <- serInt (len (Transaction.vout tx)) ;;
  let serial := serial ++ b in
  serial <- for_of (Transaction.vout tx) segwitSerialize_vout serial ;;
  serial <- (if isSegwit then for_of (Transaction.vin tx) witness_stack serial
             else Ok serial) ;;
  b <- iTo32b (Transaction.locktime tx) ;;
  Ok (serial ++ b).

Definition witnessSize (tx : Transaction) : result Z :=
  if negb (chkSegwit tx) then Ok 0
  else
    let serialized := [] in
    let isSegwit := chkSegwit tx in
    let serialized := if isSegwit then serialized ++ [0; 1] else serialized in
    serialized <- (if isSegwit
                   then for_of (Transaction.vin tx) witness_stack serialized
                   else Ok serialized) ;;
    Ok (len serialized).

(** ** Header serialization *)

Definition blockHeaderSerialdata (bh : BlockHeader) : result bytes :=
  let serial := [] in
  b <- iTo32b (BlockHeader.version bh) ;;
  let serial := serial ++ b in
  let serial := serial ++ from_hex (BlockHeader.prev_block_hash bh) in
  let serial := serial ++ from_hex (BlockHeader.merkle_root bh) in
  b <- iTo32b (BlockHeader.timestamp bh) ;;
  let serial := serial ++ b in
  b <- iTo32b (BlockHeader.bits bh) ;;
  let serial := serial ++ b in
  b <- iTo32b (BlockHeader.nonce bh) ;;
  Ok (serial ++ b).

(** ** Merkle tree *)

(** [undefined] and [null] are both [None]: the only thing the code does
    with either is compare it with [null] or read [.data] from it. *)
Definition newMerknode (lnode rnode : option MerkleNode) (data : option bytes)
  : result MerkleNode :=
  match lnode, rnode with
  | None, None =>
      match data with
      | Some d => Ok (mkMerkleNode None (reversebyte d) None)
      | None => Throw TypeError
      end
  | Some l, Some r =>
      let prevHash := node_data l ++ node_data r in
      Ok (mkMerkleNode lnode (sha (sha prevHash)) rnode)
  | _, _ => Throw TypeError
  end.

(** [nodes[i]]: an index past the end reads [undefined]. *)
Definition at_index (nodes : list (option MerkleNode)) (i : nat) : option MerkleNode :=
  match nth_error nodes i with
  | Some n => n
  | None => None
  end.

(** The [for (let i = 0; i < nodes.length; i += 2)] loop.  [nodes] is the
    array being iterated and grows by the [push] inside the body; its
    length is read again at every test of the loop condition. *)
Fixpoint newMerkTree_level (fuel : nat) (nodes : list (option MerkleNode)) (i : nat)
    (newLevel : list (option MerkleNode))
  : result (list (option MerkleNode)) :=
  match fuel with
  | O => OutOfFuel
  | S fuel' =>
      if (i <? List.length nodes)%nat then
        let nodes :=
          if negb (List.length nodes mod 2 =? 0)%nat
          then nodes ++ [at_index nodes (List.length nodes - 1)]
          else nodes in
        node <- newMerknode (at_index nodes i) (at_index nodes (i + 1)) None ;;
        newMerkTree_level fuel' nodes (i + 2) (newLevel ++ [Some node])
      else Ok newLevel
  end.

(** The [while (nodes.length > 1)] loop; [nodes] is emptied and refilled
    with [newLevel] at the end of each round. *)
Fixpoint newMerkTree_while (fuel : nat) (nodes : list (option MerkleNode))
  : result (list (option MerkleNode)) :=
  match fuel with
  | O => OutOfFuel
  | S fuel' =>
      if (1 <? List.length nodes)%nat then
        newLevel <- newMerkTree_level (S (List.length nodes)) nodes 0 [] ;;
        newMerkTree_while fuel' newLevel
      else Ok nodes
  end.

Definition newMerkTree_leaf (nodes : list (option MerkleNode)) (leaf : string)
  : result (list (option MerkleNode)) :=
  let data := from_hex leaf in
  node <- newMerknode None None (Some data) ;;
  Ok (nodes ++ [Some node]).

(** Returns [nodes[0]], which is [undefined] for an empty input. *)
Definition newMerkTree (leaves : list string) : result (option MerkleNode) :=
  nodes <- for_of leaves newMerkTree_leaf [] ;;
  nodes <- newMerkTree_while (S (List.length nodes)) nodes ;;
  Ok (at_index nodes 0).

(** ** Proof of work *)

Definition target : string :=
  "0000ffff00000000000000000000000000000000000000000000000000000000".

Definition set_nonce (bh : BlockHeader) (n : Z) : BlockHeader :=
  BlockHeader.mk (BlockHeader.version bh) (BlockHeader.prev_block_hash bh)
    (BlockHeader.merkle_root bh) (BlockHeader.timestamp bh) (BlockHeader.bits bh) n.

(** One test of the [while (true)] body up to the comparison. *)
Definition meetsTarget (bh : BlockHeader) : result bool :=
  let tgtBytes := from_hex target in
  serialized <- blockHeaderSerialdata bh ;;
  let hash := reversebyte (sha (sha serialized)) in
  c <- compArrays hash tgtBytes ;;
  Ok (c =? -1).

(** The header is a mutable object: the second component is its state
    when the call ends, whichever way it ends. *)
Fixpoint proofOfWork (fuel : nat) (bh : BlockHeader) : result bool * BlockHeader :=
  match fuel with
  | O => (OutOfFuel, bh)
  | S fuel' =>
      match meetsTarget bh with
      | Ok true => (Ok true, bh)
      | Ok false =>
          if (BlockHeader.nonce bh <? 0) || (BlockHeader.nonce bh >? 4294967295)
          then (Ok false, bh)
          else proofOfWork fuel' (set_nonce bh (BlockHeader.nonce bh + 1))
      | Throw e => (Throw e, bh)
      | OutOfFuel => (OutOfFuel, bh)
      end
  end.

(** ** Numbers of the selector

    [prioritize] divides and multiplies, so three of its quantities are
    not integers.  They are modelled by exact rationals together with the
    IEEE special values that division by zero produces.  Every zero is
    +0 (the code never produces -0: a fee is a sum starting from [0], a
    weight is a length). *)

Inductive num : Type :=
| Fin (q : Q)
| PInf
| NInf
| NaN.

Definition of_Z (z : Z) : num := Fin (inject_Z z).

Definition Qltb (x y : Q) : bool := negb (Qle_bool y x).

Definition nadd (a b : num) : num :=
  match a, b with
  | NaN, _ | _, NaN => NaN
  | Fin x, Fin y => Fin (x + y)
  | PInf, NInf | NInf, PInf => NaN
  | PInf, _ | _, PInf => PInf
  | NInf, _ | _, NInf => NInf
  end.

Definition nsub (a b : num) : num :=
  match a, b with
  | NaN, _ | _, NaN => NaN
  | Fin x, Fin y => Fin (x - y)
  | PInf, PInf | NInf, NInf => NaN
  | PInf, _ | _, NInf => PInf
  | NInf, _ | _, PInf => NInf
  end.

Definition nmul (a b : num) : num :=
  match a, b with
  | Fin x, Fin y => Fin (x * y)
  | NaN, _ | _, NaN => NaN
  | Fin x, PInf | PInf, Fin x =>
      if Qeq_bool x 0 then NaN else if Qltb 0 x then PInf else NInf
  | Fin x, NInf | NInf, Fin x =>
      if Qeq_bool x 0 then NaN else if Qltb 0 x then NInf else PInf
  | PInf, PInf | NInf, NInf => PInf
  | PInf, NInf | NInf, PInf => NInf
  end.

Definition ndiv (a b : num) : num :=
  match a, b with
  | NaN, _ | _, NaN => NaN
  | Fin x, Fin y =>
      if Qeq_bool y 0
      then (if Qeq_bool x 0 then NaN else if Qltb 0 x then PInf else NInf)
      else Fin (x / y)
  | Fin _, _ => Fin 0
  | PInf, Fin y => if Qltb y 0 then NInf else PInf
  | NInf, Fin y => if Qltb y 0 then PInf else NInf
  | _, _ => NaN
  end.

(** [v > 0]; false for [NaN]. *)
Definition npos (v : num) : bool :=
  match v with
  | Fin q => Qltb 0 q
  | PInf => true
  | _ => false
  end.

Definition nmax2 (a b : num) : num :=
  match a, b with
  | NaN, _ | _, NaN => NaN
  | PInf, _ | _, PInf => PInf
  | NInf, x | x, NInf => x
  | Fin x, Fin y => if Qle_bool x y then Fin y else Fin x
  end.

(** [Math.max(...xs)]; [-Infinity] for no argument. *)
Definition Math_max (xs : list num) : num := fold_left nmax2 xs NInf.

(** Equality of numbers up to the representation of the rational. *)
Definition num_eq (a b : num) : Prop :=
  match a, b with
  | Fin x, Fin y => x == y
  | PInf, PInf | NInf, NInf => True
  | _, _ => False
  end.

(** ** [Array.prototype.sort(compare)]

    The sort is stable, and [compare a b > 0] asks for [b] before [a]; a
    [NaN] returned by the comparator counts as +0.  For a comparator that
    orders the elements consistently, as both comparators below do on
    candidates of positive weight, these rules fix the result; [sort]
    computes it by stable insertion. *)

Section Sorting.
Context {A : Type} (compare : A -> A -> num).

Fixpoint insert (x : A) (l : list A) : list A :=
  match l with
  | [] => [x]
  | y :: l' => if npos (compare x y) then y :: insert x l' else x :: l
  end.

Definition sort (l : list A) : list A := fold_right insert [] l.
End Sorting.

(** ** The selector *)

Definition feePerWeight (tx : TxInfo) : num :=
  ndiv (of_Z (TxInfo.fee tx)) (of_Z (TxInfo.weight tx)).

(** The comparator passed to [txInfo.sort]. *)
Definition compareNormalized (maxfeeperWight : num) (a b : TxInfo) : num :=
  nsub (ndiv (ndiv (of_Z (TxInfo.fee b)) (of_Z (TxInfo.weight b))) maxfeeperWight)
       (ndiv (ndiv (of_Z (TxInfo.fee a)) (of_Z (TxInfo.weight a))) maxfeeperWight).

(** The ranking block of [prioritize]: the guarded computation of the
    maximum and the call to [sort]. *)
Definition rank (txInfo : list TxInfo) : list TxInfo :=
  if len txInfo >? 0 then
    let maxfeeperWight := Math_max (map feePerWeight txInfo) in
    sort (compareNormalized maxfeeperWight) txInfo
  else txInfo.

Definition txFee (tx : Transaction) : Z :=
  let fee := 0 in
  let fee := fold_left (fun fee vin => fee + Prevout.value (Input.prevout vin))
                       (Transaction.vin tx) fee in
  fold_left (fun fee vout => fee - Prevout.value vout) (Transaction.vout tx) fee.

Definition txID (tx : Transaction) : result string :=
  serialized <- serTransactions tx ;;
  Ok (to_hex (reversebyte (sha (sha serialized)))).

Definition wtxID (tx : Transaction) : result string :=
  segSeral <- segwitSerialize tx ;;
  Ok (to_hex (reversebyte (sha (sha segSeral)))).

(** The body of the loop over the files, after the counter test.  A file
    stands for the [Transaction] that [JSON.parse] and the constructor
    calls build from it. *)
Definition mkTxInfo (tx : Transaction) : result TxInfo :=
  let fee := txFee tx in
  serialized <- serTransactions tx ;;
  segSeral <- segwitSerialize tx ;;
  let txID := to_hex (reversebyte (sha (sha serialized))) in
  let wtxID := to_hex (reversebyte (sha (sha segSeral))) in
  ws <- witnessSize tx ;;
  bs <- baseSize tx ;;
  Ok (TxInfo.mk txID wtxID fee (ws + bs * 4)).

(** The loop over the files with its counter and [break]. *)
Fixpoint readFiles (files : list Transaction) (cnt : Z) (txInfo : list TxInfo)
  : result (list TxInfo) :=
  match files with
  | [] => Ok txInfo
  | file :: rest =>
      let cnt := cnt + 1 in
      if cnt >? 4200 then Ok txInfo
      else
        info <- mkTxInfo file ;;
        readFiles rest cnt (txInfo ++ [info])
  end.

(** The variables of the selection loop. *)
Record selection : Type := mkSelection {
  permittingtxs : list TxInfo;
  permWieght : Z;
  reward : num;
  permtxIds : list string;
  permittedWTxIds : list string }.

Definition maxWeight : Z := 3999300.

Definition selection0 : selection :=
  mkSelection [] maxWeight (Fin (25 # 2)) [] [].

(** The body of the selection loop. *)
Definition select (st : selection) (tx : TxInfo) : selection :=
  if permWieght st >=? TxInfo.weight tx then
    mkSelection (permittingtxs st ++ [tx])
                (permWieght st - TxInfo.weight tx)
                (nadd (reward st) (of_Z (TxInfo.fee tx)))
                (permtxIds st ++ [TxInfo.txid tx])
                (permittedWTxIds st ++ [TxInfo.wtxid tx])
  else st.

Definition selectAll (txInfo : list TxInfo) : selection :=
  fold_left select txInfo selection0.

Definition prioritize (files : list Transaction)
  : result (num * list string * list string) :=
  txInfo <- readFiles files 0 [] ;;
  let txInfo := rank txInfo in
  let st := selectAll txInfo in
  Ok (nmul (reward st) (of_Z 100000000), permtxIds st, permittedWTxIds st).

(** ** Reference definitions, written from the specification

    Each is compared with the code's function in the theorems below. *)

(** The header layout with both hash fields reversed from display order. *)
Definition headerReversed_spec (bh : BlockHeader) : bytes :=
  le_bytes 4 (BlockHeader.version bh)
  ++ rev (from_hex (BlockHeader.prev_block_hash bh))
  ++ rev (from_hex (BlockHeader.merkle_root bh))
  ++ le_bytes 4 (BlockHeader.timestamp bh)
  ++ le_bytes 4 (BlockHeader.bits bh)
  ++ le_bytes 4 (BlockHeader.nonce bh).

(** The header layout with both hash fields as stored. *)
Definition headerVerbatim (bh : BlockHeader) : bytes :=
  le_bytes 4 (BlockHeader.version bh)
  ++ from_hex (BlockHeader.prev_block_hash bh)
  ++ from_hex (BlockHeader.merkle_root bh)
  ++ le_bytes 4 (BlockHeader.timestamp bh)
  ++ le_bytes 4 (BlockHeader.bits bh)
  ++ le_bytes 4 (BlockHeader.nonce bh).

(** The value of a little-endian octet string. *)
Fixpoint le_value (b : bytes) : Z :=
  match b with
  | [] => 0
  | x :: rest => x + 256 * le_value rest
  end.

(** One level of the classic Merkle construction on digests: neighbours
    are hashed together, a last digest without neighbour is paired with
    itself. *)
Fixpoint merkleLevel_spec (digests : list bytes) : list bytes :=
  match digests with
  | l :: r :: rest => doubleHash (l ++ r) :: merkleLevel_spec rest
  | [l] => [doubleHash (l ++ l)]
  | [] => []
  end.

(** Levels are reduced until one digest remains. *)
Fixpoint merkleReduce_spec (fuel : nat) (digests : list bytes) : option bytes :=
  match digests with
  | [] => None
  | [root] => Some root
  | _ =>
      match fuel with
      | O => None
      | S fuel' => merkleReduce_spec fuel' (merkleLevel_spec digests)
      end
  end.

Definition merkleRoot_spec (ids : list string) : option bytes :=
  merkleReduce_spec (List.length ids) (map (fun id => rev (from_hex id)) ids).




(** Plain descending fee-per-weight comparison. *)
Definition comparePlain (a b : TxInfo) : num :=
  nsub (feePerWeight b) (feePerWeight a).

(** The base subsidy, in satoshis. *)
Definition subsidy : Z := 1250000000.

(** The exact fee-per-weight ratio of a candidate of non-zero weight. *)
Definition ratio (c : TxInfo) : Q :=
  (inject_Z (TxInfo.fee c) / inject_Z (TxInfo.weight c))%Q.

(** The larger of two rationals, as [Math.max] picks it. *)
Definition qmax (x y : Q) : Q := if Qle_bool x y then y else x.

(** ** The tree the code builds, level by level

    Used to describe the array contents between rounds of the loop. *)

Definition leafNode (id : string) : MerkleNode :=
  mkMerkleNode None (rev (from_hex id)) None.

Definition parentNode (l r : MerkleNode) : MerkleNode :=
  mkMerkleNode (Some l) (sha (sha (node_data l ++ node_data r))) (Some r).

Fixpoint pairNodes (nodes : list MerkleNode) : list MerkleNode :=
  match nodes with
  | l :: r :: rest => parentNode l r :: pairNodes rest
  | [l] => [parentNode l l]
  | [] => []
  end.

(** ** Concrete inputs used by the examples *)

Definition ascii_bytes (s : string) : bytes :=
  map (fun c => Z.of_nat (nat_of_ascii c)) (list_ascii_of_string s).

Definition zeros64 : string :=
  "0000000000000000000000000000000000000000000000000000000000000000".

Definition payScript : string := "0014df4bf9f3621073202be59ae590f55f42879a21a0".

Definition out (value : Z) : Prevout :=
  Prevout.mk payScript payScript "v0_p2wpkh" value None.

Definition spend (prevTx : string) (value : Z) (witness : list string) : Input :=
  Input.mk prevTx 0 (out value) "" "" witness false 4294967295.

Definition idA : string :=
  "1111111111111111111111111111111111111111111111111111111111111111".
Definition idB : string :=
  "00000000000000000000000000000000000000000000000000000000000000ff".

(** Pays 1000 in fees, no witness. *)
Definition txPaying : Transaction :=
  Transaction.mk 1 0 [spend idA 2000 []] [out 1000].


(** A witness-carrying transaction paying 500. *)
Definition txWitness : Transaction :=
  Transaction.mk 2 0 [spend idB 1500 ["3044"; "02ab"]] [out 1000].

(** A candidate record with the same string for both ids. *)
Definition cand (id : string) (fee weight : Z) : TxInfo := TxInfo.mk id id fee weight.



(** A header whose previous-block hash is not a palindrome. *)
Definition headerB : BlockHeader :=
  BlockHeader.mk 7 idB idA 1714000000 520159231 0.

(** The same header at the last nonce of the 32-bit domain. *)
Definition headerLast : BlockHeader := set_nonce headerB 4294967295.

(** A start time at which the block built from [txPaying] and
    [txWitness] meets the target with nonce 0. *)
Definition luckyTime : Z := 1714122834.

(** No positive fee, one fee of zero, not in descending order. *)
Definition candsZeroMax : list TxInfo :=
  [cand idA (-200) 400; cand idB 0 400; cand zeros64 (-100) 400].

(** A transaction whose version is a negative 32-bit integer. *)
Definition txNegativeVersion : Transaction :=
  Transaction.mk (-1) 0 [spend idA 2000 []] [out 1000].

(** [headerB] two nonces before the first one that meets the target. *)
Definition headerNear : BlockHeader := set_nonce headerB 23412.

(** ** The rest of the pipeline: commitment, coinbase, mining *)

(** [witnessMerk] reads the mempool again through [prioritize]. *)
Definition witnessMerk (files : list Transaction) : result string :=
  p <- prioritize files ;;
  let wTxIds := snd p in
  let paddedWTxIds := zeros64 :: wTxIds in
  merkRoot <- newMerkTree paddedWTxIds ;;
  match merkRoot with
  | None => Throw TypeError
  | Some root =>
      let commitString := (to_hex (node_data root) ++ zeros64)%string in
      let wittCommit := from_hex commitString in
      let wittCommitHash := sha (sha wittCommit) in
      Ok (to_hex wittCommitHash)
  end.

Definition coinbaseScript : string :=
  "03951a0604f15ccf5609013803062b9b5a0100072f425443432f20".

Definition payAddress : string := "bc1qma9lnumzzpejq2l9ntjepa2lg2re5gdqn3nf0c".

(** The transaction object built by [conibaseCreate].  The reward is
    held here as the integer it denotes; see [asInteger]. *)
Definition coinbaseTx (netReward : Z) (witCommit : string) : Transaction :=
  Transaction.mk 1 0
    [Input.mk zeros64 4294967295
       (Prevout.mk payScript payScript "p2pkh" netReward (Some payAddress))
       coinbaseScript coinbaseScript [zeros64] true 4294967295]
    [Prevout.mk payScript payScript "p2pkh" netReward (Some payAddress);
     Prevout.mk ("6a24" ++ "aa21a9ed" ++ witCommit)%string
                ("OP_RETURN" ++ "OP_PUSHBYTES_36" ++ "aa21a9ed" ++ witCommit)%string
                "op_return" 0 (Some payAddress)].

Definition conibaseCreate (files : list Transaction) (netReward : Z)
  : result Transaction :=
  witCommit <- witnessMerk files ;;
  Ok (coinbaseTx netReward witCommit).

(** The integer a number denotes, if it denotes one.  [BigInt(n)] raises
    a range error on every other number. *)
Definition asInteger (v : num) : option Z :=
  match v with
  | Fin q =>
      if (Qnum q mod Zpos (Qden q) =? 0) then Some (Qnum q / Zpos (Qden q)) else None
  | _ => None
  end.

Definition newline : string := String (ascii_of_nat 10) EmptyString.

(** [ids.join("\n")] *)
Fixpoint join (ids : list string) : string :=
  match ids with
  | [] => EmptyString
  | [id] => id
  | id :: rest => (id ++ newline ++ join rest)%string
  end.

(** The global header [Bh] before mining; [timestamp] is the value of
    [Math.floor(Date.now() / 1000)] when the program starts. *)
Definition Bh (timestamp : Z) : BlockHeader :=
  BlockHeader.mk 7 zeros64 "" timestamp 520159231 0.

Definition set_merkle_root (bh : BlockHeader) (root : string) : BlockHeader :=
  BlockHeader.mk (BlockHeader.version bh) (BlockHeader.prev_block_hash bh) root
    (BlockHeader.timestamp bh) (BlockHeader.bits bh) (BlockHeader.nonce bh).

(** [miningFunction]; the outcome is the text written to [output.txt],
    [None] when nothing is written.  A reward that is not an integer
    would reach [BigInt] in the first serialization of the coinbase
    transaction, where it raises; the model raises at that point. *)
Definition miningFunction (timestamp : Z) (files : list Transaction) (fuel : nat)
  : result (option string) :=
  p <- prioritize files ;;
  let netReward := fst (fst p) in
  let txIds := snd (fst p) in
  match asInteger netReward with
  | None => _ <- witnessMerk files ;; Throw RangeError
  | Some netReward =>
      cbTx <- conibaseCreate files netReward ;;
      serialCoinbtx <- serTransactions cbTx ;;
      let padTxIds := to_hex (reversebyte (sha (sha serialCoinbtx))) :: txIds in
      mkr <- newMerkTree padTxIds ;;
      match mkr with
      | None => Throw TypeError
      | Some root =>
          let bh := set_merkle_root (Bh timestamp) (to_hex (node_data root)) in
          match proofOfWork fuel bh with
          | (Ok true, bh) =>
              serializedBh <- blockHeaderSerialdata bh ;;
              segSerialized <- segwitSerialize cbTx ;;
              Ok (Some (to_hex serializedBh ++ newline
                        ++ to_hex segSerialized ++ newline
                        ++ join padTxIds)%string)
          | (Ok false, _) => Ok None
          | (Throw e, _) => Throw e
          | (OutOfFuel, _) => OutOfFuel
          end
      end
  end.

(** ** Vocabulary of the further properties *)

(** Every entry is an octet. *)
Definition octets (b : bytes) : Prop := Forall (fun x => 0 <= x <= 255) b.

(** The value of an octet string read most significant octet first. *)
Fixpoint be_value (b : bytes) : Z :=
  match b with
  | [] => 0
  | x :: rest => x * 256 ^ len rest + be_value rest
  end.

(** Every component of a hash state is a 32-bit word. *)
Definition wordState (s : SHA256.state) : Prop :=
  let '(a, b, c, d, e, f, g, h) := s in
  (0 <= a < 4294967296 /\ 0 <= b < 4294967296 /\
   0 <= c < 4294967296 /\ 0 <= d < 4294967296) /\
  (0 <= e < 4294967296 /\ 0 <= f < 4294967296 /\
   0 <= g < 4294967296 /\ 0 <= h < 4294967296).

Definition u32 (n : Z) : Prop := 0 <= n <= 4294967295.
Definition u64 (n : Z) : Prop := 0 <= n <= 18446744073709551615.

(** The fields the serializers write with a fixed width fit that width,
    and every count fits the widest variable-length form. *)
Definition inputFits (vin : Input) : Prop :=
  u32 (Input.vout vin) /\ u32 (Input.sequence vin) /\
  u64 (len (from_hex (Input.scriptsig vin))).

Definition outputFits (vout : Prevout) : Prop :=
  u64 (Prevout.value vout) /\ u64 (len (from_hex (Prevout.scriptpubkey vout))).

Definition txFits (tx : Transaction) : Prop :=
  u32 (Transaction.version tx) /\ u32 (Transaction.locktime tx) /\
  u64 (len (Transaction.vin tx)) /\ u64 (len (Transaction.vout tx)) /\
  Forall inputFits (Transaction.vin tx) /\ Forall outputFits (Transaction.vout tx).

(** The octets of the coinbase transaction between version and lock
    time: one input spending the null outpoint, the reward output and the
    commitment output carrying the 32 octets [c]. *)
Definition coinbaseBody (netReward : Z) (c : bytes) : bytes :=
  [1] ++ repeat 0 32 ++ [255; 255; 255; 255]
      ++ [27] ++ from_hex coinbaseScript ++ [255; 255; 255; 255]
  ++ [2] ++ le_bytes 8 netReward ++ [22] ++ from_hex payScript
      ++ [0; 0; 0; 0; 0; 0; 0; 0] ++ [38] ++ [106; 36; 170; 33; 169; 237] ++ c.

(** The witness-inclusive serialization of the coinbase transaction. *)
Definition coinbaseWire (netReward : Z) (c : bytes) : bytes :=
  le_bytes 4 1 ++ [0; 1] ++ coinbaseBody netReward c
  ++ ([1; 32] ++ repeat 0 32) ++ le_bytes 4 0.

(** The transaction with every witness stack emptied. *)
Definition stripInput (vin : Input) : Input :=
  Input.mk (Input.txid vin) (Input.vout vin) (Input.prevout vin)
    (Input.scriptsig vin) (Input.scriptsig_asm vin) [] (Input.is_coinbase vin)
    (Input.sequence vin).

Definition stripWitness (tx : Transaction) : Transaction :=
  Transaction.mk (Transaction.version tx) (Transaction.locktime tx)
    (map stripInput (Transaction.vin tx)) (Transaction.vout tx).

(** A node is a leaf, or has two children whose digests it hashes. *)
Fixpoint wellFormed (n : MerkleNode) : Prop :=
  match n with
  | mkMerkleNode None _ None => True
  | mkMerkleNode (Some l) d (Some r) =>
      d = doubleHash (node_data l ++ node_data r) /\ wellFormed l /\ wellFormed r
  | _ => False
  end.


(** * Properties *)

(** ** SHA-256 test vectors (FIPS 180-4 examples) *)

Example sha_empty :
  to_hex (sha []) = "e3b0c44298fc1c149afbf4c8996fb92427ae41e4649b934ca495991b7852b855"%string.
Proof. vm_compute. reflexivity. Qed.

Example sha_abc :
  to_hex (sha (ascii_bytes "abc")) =
  "ba7816bf8f01cfea414140de5dae2223b00361a396177a9cb410ff61f20015ad"%string.
Proof. vm_compute. reflexivity. Qed.

Example sha_two_blocks :
  to_hex (sha (ascii_bytes "abcdbcdecdefdefgefghfghighijhijkijkljklmklmnlmnomnopnopq")) =
  "248d6a61d20638b8e5c026930c3e6039a33ce45964ff2167f6ecedd419db06c1"%string.
Proof. vm_compute. reflexivity. Qed.

Lemma sha_length (data : bytes) : List.length (sha data) = 32%nat.
Proof.
  unfold sha, SHA256.hash.
  destruct (fold_left SHA256.compress _ SHA256.initial)
    as [[[[[[[a b] c] d] e] f] g] h].
  reflexivity.
Qed.

(** ** Codec *)

Lemma iTo16b_ok (n : Z) : 0 <= n <= 65535 -> iTo16b n = Ok (le_bytes 2 n).
Proof.
  intros H. unfold iTo16b.
  replace ((0 <=? n) && (n <=? 65535)) with true; [reflexivity|].
  symmetry. apply andb_true_intro. split; apply Z.leb_le; lia.
Qed.

Lemma iTo32b_ok (n : Z) : 0 <= n <= 4294967295 -> iTo32b n = Ok (le_bytes 4 n).
Proof.
  intros H. unfold iTo32b.
  replace ((0 <=? n) && (n <=? 4294967295)) with true; [reflexivity|].
  symmetry. apply andb_true_intro. split; apply Z.leb_le; lia.
Qed.

Lemma iTo32b_out_of_range (n : Z) :
  n < 0 \/ 4294967295 < n -> iTo32b n = Throw RangeError.
Proof.
  intros H. unfold iTo32b.
  replace ((0 <=? n) && (n <=? 4294967295)) with false; [reflexivity|].
  symmetry. apply andb_false_iff.
  destruct H; [left | right]; apply Z.leb_gt; lia.
Qed.

Lemma ito64b_ok (n : Z) :
  0 <= n <= 18446744073709551615 -> ito64b n = Ok (le_bytes 8 n).
Proof.
  intros H. unfold ito64b.
  replace ((0 <=? n) && (n <=? 18446744073709551615)) with true; [reflexivity|].
  symmetry. apply andb_true_intro. split; apply Z.leb_le; lia.
Qed.

Lemma le_bytes_length (k : nat) (n : Z) : List.length (le_bytes k n) = k.
Proof. unfold le_bytes. now rewrite length_map, length_seq. Qed.

(** Reading [k] little-endian octets back gives the value modulo [256^k]. *)
Lemma le_value_from (k : nat) : forall (s : nat) (n : Z),
  0 <= n ->
  le_value (map (fun i => Z.shiftr n (8 * Z.of_nat i) mod 256) (seq s k))
  = (n / 2 ^ (8 * Z.of_nat s)) mod 2 ^ (8 * Z.of_nat k).
Proof.
  induction k as [|k IH]; intros s n Hn.
  - simpl. now rewrite Z.mod_1_r.
  - cbn [seq map le_value]. rewrite IH by assumption.
    rewrite Z.shiftr_div_pow2 by lia.
    replace (8 * Z.of_nat (S s)) with (8 * Z.of_nat s + 8) by lia.
    replace (8 * Z.of_nat (S k)) with (8 + 8 * Z.of_nat k) by lia.
    rewrite !Z.pow_add_r by lia.
    rewrite <- Z.div_div by (try apply Z.pow_pos_nonneg; lia).
    set (m := n / 2 ^ (8 * Z.of_nat s)).
    change (2 ^ 8) with 256.
    rewrite Z.rem_mul_r by (try apply Z.pow_nonzero; try apply Z.pow_pos_nonneg; lia).
    reflexivity.
Qed.

Lemma le_value_le_bytes (k : nat) (n : Z) :
  0 <= n < 2 ^ (8 * Z.of_nat k) -> le_value (le_bytes k n) = n.
Proof.
  intros H. unfold le_bytes. rewrite le_value_from by lia.
  change (2 ^ (8 * Z.of_nat 0)) with 1. rewrite Z.div_1_r.
  apply Z.mod_small. exact H.
Qed.

(** C9, as stated, fails: a negative argument is smaller than [0xfd], so
    [serInt] takes the one-octet branch and returns the octet [255] for
    [-1]; nothing is raised. *)
Lemma serInt_negative_not_rejected :
  serInt (-1) = Ok [255] /\ ~ (exists e, serInt (-1) = Throw e).
Proof.
  split; [reflexivity|]. intros [e H]. discriminate H.
Qed.

(** C9 (amended): [serInt] has no sign check.  A negative integer yields
    the single octet [n mod 256]; every [0 <= n < 2^64] succeeds in its
    documented size class, the payload being [n] in little-endian order;
    from [2^64] on the 8-octet write raises a range error. *)
Theorem serInt_size_classes (n : Z) :
  (n < 0 -> serInt n = Ok [n mod 256]) /\
  (0 <= n < 253 -> serInt n = Ok [n]) /\
  (253 <= n <= 65535 ->
     serInt n = Ok (253 :: le_bytes 2 n) /\ le_value (le_bytes 2 n) = n) /\
  (65535 < n <= 4294967295 ->
     serInt n = Ok (254 :: le_bytes 4 n) /\ le_value (le_bytes 4 n) = n) /\
  (4294967295 < n <= 18446744073709551615 ->
     serInt n = Ok (255 :: le_bytes 8 n) /\ le_value (le_bytes 8 n) = n) /\
  (18446744073709551615 < n -> serInt n = Throw RangeError).
Proof.
  unfold serInt.
  destruct (Z.ltb_spec n 253) as [H1|H1].
  { repeat apply conj; intros Hn; try lia; try reflexivity.
    now rewrite Z.mod_small by lia. }
  destruct (Z.leb_spec n 65535) as [H2|H2].
  { repeat apply conj; intros Hn; try lia.
    split; [now rewrite iTo16b_ok by lia|].
    apply le_value_le_bytes. change (2 ^ (8 * Z.of_nat 2)) with 65536. lia. }
  destruct (Z.leb_spec n 4294967295) as [H3|H3].
  { repeat apply conj; intros Hn; try lia.
    split; [now rewrite iTo32b_ok by lia|].
    apply le_value_le_bytes. change (2 ^ (8 * Z.of_nat 4)) with 4294967296. lia. }
  repeat apply conj; intros Hn; try lia.
  - split; [now rewrite ito64b_ok by lia|].
    apply le_value_le_bytes.
    change (2 ^ (8 * Z.of_nat 8)) with 18446744073709551616. lia.
  - unfold ito64b.
    destruct (Z.leb_spec 0 n); [|lia].
    destruct (Z.leb_spec n 18446744073709551615); [lia|]. reflexivity.
Qed.

Lemma serInt_size_classes_witness :
  serInt 300 = Ok [253; 44; 1] /\ le_value [44; 1] = 300.
Proof.
  apply (proj1 (proj2 (proj2 (serInt_size_classes 300)))). lia.
Defined.

(** ** Serializers *)

Lemma chkSegwit_vin_false (vin : list Input) :
  (forall i, In i vin -> Input.witness i = []) -> chkSegwit_vin vin = false.
Proof.
  induction vin as [|v rest IH]; intros H; [reflexivity|].
  cbn [chkSegwit_vin]. rewrite (H v (or_introl eq_refl)). cbn.
  apply IH. intros i Hi. apply H. now right.
Qed.

(** C6: when no input carries a witness item, [segwitSerialize] and
    [serTransactions] give the same outcome: the same octets, or the same
    exception when a field does not fit its width. *)
Theorem segwitSerialize_without_witness (tx : Transaction) :
  (forall i, In i (Transaction.vin tx) -> Input.witness i = []) ->
  segwitSerialize tx = serTransactions tx.
Proof.
  intros H. unfold segwitSerialize, serTransactions.
  unfold chkSegwit. rewrite (chkSegwit_vin_false _ H).
  (* without the marker and the stack, the two bodies perform the same
     sequence of writes *)
  reflexivity.
Qed.

Lemma segwitSerialize_without_witness_witness :
  segwitSerialize txPaying = serTransactions txPaying.
Proof.
  apply (segwitSerialize_without_witness txPaying).
  intros i [Hi | []]. now subst i.
Defined.

(** The same transaction does serialize, to 82 octets, and a
    witness-carrying one gets the two extra marker octets and its stack. *)
Example serTransactions_txPaying :
  exists b, serTransactions txPaying = Ok b /\ List.length b = 82%nat.
Proof. eexists. split; [vm_compute; reflexivity | reflexivity]. Qed.

Example segwitSerialize_txWitness_differs :
  segwitSerialize txWitness <> serTransactions txWitness.
Proof. vm_compute. discriminate. Qed.

(** ** Block header *)

(** C3, as stated, fails: the header serializer copies the decoded hash
    fields in the order they are stored.  On [headerB], whose two hash
    fields are 32 octets long, octet 4 of the output is the first octet
    [0x00] of the stored previous-block hash, where the reversed layout
    has its last octet [0xff]. *)
Lemma blockHeaderSerialdata_no_reversal :
  List.length (from_hex (BlockHeader.prev_block_hash headerB)) = 32%nat /\
  List.length (from_hex (BlockHeader.merkle_root headerB)) = 32%nat /\
  blockHeaderSerialdata headerB <> Ok (headerReversed_spec headerB) /\
  (exists b, blockHeaderSerialdata headerB = Ok b /\
             nth 4 b 0 = 0 /\ nth 4 (headerReversed_spec headerB) 0 = 255).
Proof.
  split; [reflexivity|]. split; [reflexivity|]. split.
  - vm_compute. discriminate.
  - eexists. split; [vm_compute; reflexivity|]. split; reflexivity.
Qed.

(** C3 (amended): for a header whose four integer fields are unsigned
    32-bit values and whose two hash fields decode to 32 octets,
    [blockHeaderSerialdata] returns the 80 octets version(4) ‖
    previous-hash(32) ‖ merkle-root(32) ‖ timestamp(4) ‖ bits(4) ‖
    nonce(4), integers little-endian and both hash fields in the octet
    order in which the header stores them, without reversal. *)
Theorem blockHeaderSerialdata_layout (bh : BlockHeader) :
  0 <= BlockHeader.version bh <= 4294967295 ->
  0 <= BlockHeader.timestamp bh <= 4294967295 ->
  0 <= BlockHeader.bits bh <= 4294967295 ->
  0 <= BlockHeader.nonce bh <= 4294967295 ->
  List.length (from_hex (BlockHeader.prev_block_hash bh)) = 32%nat ->
  List.length (from_hex (BlockHeader.merkle_root bh)) = 32%nat ->
  blockHeaderSerialdata bh = Ok (headerVerbatim bh) /\
  List.length (headerVerbatim bh) = 80%nat.
Proof.
  intros Hv Ht Hb Hn Hp Hm. split.
  - unfold blockHeaderSerialdata, headerVerbatim.
    rewrite !iTo32b_ok by assumption. cbn [bind].
    rewrite <- !app_assoc. reflexivity.
  - unfold headerVerbatim. rewrite !length_app, !le_bytes_length, Hp, Hm.
    reflexivity.
Qed.

Lemma blockHeaderSerialdata_layout_witness :
  blockHeaderSerialdata headerB = Ok (headerVerbatim headerB) /\
  List.length (headerVerbatim headerB) = 80%nat.
Proof.
  apply (blockHeaderSerialdata_layout headerB);
    try reflexivity; cbn; lia.
Defined.

(** ** Selector: the loop over the files *)

Lemma readFiles_firstn (files : list Transaction) : forall (cnt : Z) (txInfo : list TxInfo),
  readFiles files cnt txInfo
  = readFiles (firstn (Z.to_nat (4200 - cnt)) files) cnt txInfo.
Proof.
  induction files as [|file rest IH]; intros cnt txInfo.
  - now rewrite firstn_nil.
  - cbn [readFiles]. destruct (Z.gtb_spec (cnt + 1) 4200) as [Hgt|Hle].
    + replace (Z.to_nat (4200 - cnt)) with O by lia. reflexivity.
    + replace (Z.to_nat (4200 - cnt)) with (S (Z.to_nat (4200 - (cnt + 1)))) by lia.
      cbn [firstn readFiles].
      destruct (Z.gtb_spec (cnt + 1) 4200); [lia|].
      destruct (mkTxInfo file) as [info| |]; cbn [bind]; try reflexivity.
      apply IH.
Qed.

(** C10: only the first 4200 files are looked at; whatever follows them
    has no influence on the result of [prioritize]. *)
Theorem prioritize_first_4200 (files : list Transaction) :
  prioritize files = prioritize (firstn 4200 files).
Proof.
  unfold prioritize.
  rewrite (readFiles_firstn files 0 []).
  rewrite (readFiles_firstn (firstn 4200 files) 0 []).
  change (Z.to_nat (4200 - 0)) with 4200%nat.
  now rewrite firstn_firstn, Nat.min_id.
Qed.



(** ** Selector: the greedy loop *)









(** ** Ranking keeps the candidates *)

Section SortingFacts.
Context {A : Type} (compare : A -> A -> num).

Lemma insert_perm (x : A) (l : list A) : Permutation (insert compare x l) (x :: l).
Proof.
  induction l as [|y l IH]; cbn [insert]; [reflexivity|].
  destruct (npos (compare x y)); [|reflexivity].
  rewrite IH. apply perm_swap.
Qed.

Lemma sort_perm (l : list A) : Permutation (sort compare l) l.
Proof.
  induction l as [|x l IH]; cbn; [reflexivity|].
  fold (sort compare l). rewrite insert_perm. now constructor.
Qed.
End SortingFacts.


(** ** Selector: the reward *)



(** C1, failing input: a single candidate paying 1000 satoshis in fees.
    The subsidy plus the accepted fees is 1 250 001 000 satoshis;
    [prioritize] returns 101 250 000 000, because the fee is added to the
    subsidy counted in coins and the sum is then multiplied by 10^8. *)
Theorem prioritize_reward_txPaying :
  exists r id wid,
    prioritize [txPaying] = Ok (r, [id], [wid]) /\
    txID txPaying = Ok id /\
    txFee txPaying = 1000 /\
    num_eq r (of_Z 101250000000) /\
    ~ num_eq r (of_Z (subsidy + 1000)).
Proof.
  eexists. eexists. eexists.
  split; [vm_compute; reflexivity|].
  split; [vm_compute; reflexivity|].
  split; [reflexivity|].
  split; [reflexivity|].
  vm_compute. discriminate.
Qed.

(** ** Selector: fees are not examined *)





(** ** Ranking: normalized against plain comparison *)

Local Open Scope Q_scope.

Lemma Qltb_lt (x y : Q) : Qltb x y = true <-> x < y.
Proof.
  unfold Qltb. rewrite negb_true_iff. split.
  - intros H. apply Qnot_le_lt. intros Hle.
    apply Qle_bool_iff in Hle. congruence.
  - intros H. destruct (Qle_bool y x) eqn:E; [|reflexivity].
    apply Qle_bool_iff in E. exfalso. exact (Qlt_not_le _ _ H E).
Qed.


Lemma Qeq_bool_false (x y : Q) : ~ x == y -> Qeq_bool x y = false.
Proof.
  intros H. destruct (Qeq_bool x y) eqn:E; [|reflexivity].
  apply Qeq_bool_iff in E. contradiction.
Qed.

Lemma Qeq_bool_true (x y : Q) : x == y -> Qeq_bool x y = true.
Proof. apply Qeq_bool_iff. Qed.

Lemma inject_Z_pos (z : Z) : (0 < z)%Z -> 0 < inject_Z z.
Proof. intros H. unfold Qlt. cbn. lia. Qed.

Lemma feePerWeight_ratio (c : TxInfo) :
  (0 < TxInfo.weight c)%Z -> feePerWeight c = Fin (ratio c).
Proof.
  intros H. unfold feePerWeight, of_Z, ndiv.
  rewrite Qeq_bool_false; [reflexivity|].
  intros E. apply inject_Z_pos in H. rewrite E in H. discriminate H.
Qed.

Lemma ratio_sign (c : TxInfo) :
  (0 < TxInfo.weight c)%Z ->
  (0 < ratio c <-> (0 < TxInfo.fee c)%Z) /\ (ratio c == 0 <-> TxInfo.fee c = 0%Z).
Proof.
  intros H. unfold ratio.
  destruct c as [i w f wt]. cbn [TxInfo.fee TxInfo.weight] in *.
  destruct wt as [|p|p]; try lia.
  unfold Qdiv, Qinv, Qmult, Qlt, Qeq, inject_Z. cbn.
  split; split; intros; lia.
Qed.

Lemma Math_max_fin (qs : list Q) : forall a : Q,
  fold_left nmax2 (map Fin qs) (Fin a) = Fin (fold_left qmax qs a).
Proof.
  induction qs as [|q qs IH]; intros a; [reflexivity|].
  cbn [map fold_left nmax2]. unfold qmax at 2.
  destruct (Qle_bool a q); apply IH.
Qed.

Lemma qmax_fold_ge (qs : list Q) : forall a : Q,
  a <= fold_left qmax qs a /\ forall q, In q qs -> q <= fold_left qmax qs a.
Proof.
  induction qs as [|x qs IH]; intros a; cbn [fold_left].
  - split; [apply Qle_refl | easy].
  - destruct (IH (qmax a x)) as [H1 H2].
    assert (Ha : a <= qmax a x /\ x <= qmax a x).
    { unfold qmax. destruct (Qle_bool a x) eqn:E.
      - apply Qle_bool_iff in E. split; [exact E | apply Qle_refl].
      - split; [apply Qle_refl|]. apply Qlt_le_weak, Qltb_lt.
        unfold Qltb. now rewrite E. }
    split; [eapply Qle_trans; [apply Ha | exact H1]|].
    intros q [<-|Hq]; [eapply Qle_trans; [apply Ha | exact H1] | now apply H2].
Qed.

Lemma qmax_fold_zero (qs : list Q) : forall a : Q,
  a == 0 -> (forall q, In q qs -> q == 0) -> fold_left qmax qs a == 0.
Proof.
  induction qs as [|x qs IH]; intros a Ha Hq; cbn [fold_left]; [exact Ha|].
  apply IH.
  - unfold qmax. destruct (Qle_bool a x); [apply Hq; now left | exact Ha].
  - intros q Hin. apply Hq. now right.
Qed.

Lemma map_feePerWeight (txInfo : list TxInfo) :
  (forall c, In c txInfo -> (0 < TxInfo.weight c)%Z) ->
  map feePerWeight txInfo = map Fin (map ratio txInfo).
Proof.
  intros H. rewrite map_map. apply map_ext_in.
  intros c Hc. now apply feePerWeight_ratio, H.
Qed.

(** With positive weights and at least one candidate, the maximum is a
    rational that bounds every ratio. *)
Lemma maxfeeperWight_fin (c0 : TxInfo) (txInfo : list TxInfo) :
  (forall c, In c (c0 :: txInfo) -> (0 < TxInfo.weight c)%Z) ->
  exists m, Math_max (map feePerWeight (c0 :: txInfo)) = Fin m /\
            (forall c, In c (c0 :: txInfo) -> ratio c <= m) /\
            ((forall c, In c (c0 :: txInfo) -> ratio c == 0) -> m == 0).
Proof.
  intros H. rewrite (map_feePerWeight _ H). unfold Math_max.
  cbn [map fold_left nmax2]. rewrite Math_max_fin.
  eexists. split; [reflexivity|].
  destruct (qmax_fold_ge (map ratio txInfo) (ratio c0)) as [H1 H2].
  split.
  - intros c [<-|Hc]; [exact H1|]. apply H2. now apply in_map.
  - intros Hz. apply qmax_fold_zero; [apply Hz; now left|].
    intros q Hq. apply in_map_iff in Hq. destruct Hq as (c & <- & Hc).
    apply Hz. now right.
Qed.

Section SortExt.
Context {A : Type} (c1 c2 : A -> A -> num).


End SortExt.







(** The reference order is what its name says: descending in the ratio,
    and candidates of equal ratio keep their input order. *)
Lemma sort_comparePlain_descending (txInfo : list TxInfo) :
  (forall c, In c txInfo -> (0 < TxInfo.weight c)%Z) ->
  StronglySorted (fun a b => ratio b <= ratio a) (sort comparePlain txInfo).
Proof.
  induction txInfo as [|x l IH]; intros Hw; [constructor|].
  cbn [sort fold_right]. fold (sort comparePlain l).
  assert (Hs : StronglySorted (fun a b => ratio b <= ratio a) (sort comparePlain l))
    by (apply IH; intros; apply Hw; now right).
  assert (Hin : forall y, In y (sort comparePlain l) -> (0 < TxInfo.weight y)%Z).
  { intros y Hy. apply Hw. right. exact (Permutation_in _ (sort_perm _ l) Hy). }
  assert (Hx : (0 < TxInfo.weight x)%Z) by (apply Hw; now left).
  clear IH Hw. induction Hs as [|y s Hs IHs Hall]; cbn [insert].
  - repeat constructor.
  - unfold comparePlain at 1.
    rewrite !feePerWeight_ratio by (try assumption; apply Hin; now left).
    cbn [nsub npos].
    destruct (Qltb 0 (ratio y - ratio x)) eqn:E.
    + apply Qltb_lt in E.
      constructor; [apply IHs; intros; apply Hin; now right|].
      apply Forall_forall. intros z Hz.
      apply (Permutation_in _ (insert_perm comparePlain x s)) in Hz.
      destruct Hz as [<-|Hz]; [lra|].
      rewrite Forall_forall in Hall. now apply Hall.
    + assert (Hle : ratio y <= ratio x).
      { apply Qnot_lt_le. intros Hlt.
        assert (0 < ratio y - ratio x) by lra.
        apply Qltb_lt in H. congruence. }
      constructor; [now constructor|].
      constructor; [exact Hle|].
      apply Forall_forall. intros z Hz. rewrite Forall_forall in Hall.
      specialize (Hall z Hz). lra.
Qed.

Lemma sort_comparePlain_stable (txInfo : list TxInfo) (r : Q) :
  (forall c, In c txInfo -> (0 < TxInfo.weight c)%Z) ->
  filter (fun c => Qeq_bool (ratio c) r) (sort comparePlain txInfo)
  = filter (fun c => Qeq_bool (ratio c) r) txInfo.
Proof.
  induction txInfo as [|x l IH]; intros Hw; [reflexivity|].
  cbn [sort fold_right]. fold (sort comparePlain l).
  cbn [filter]. rewrite <- IH by (intros; apply Hw; now right).
  assert (Hin : forall y, In y (sort comparePlain l) -> (0 < TxInfo.weight y)%Z).
  { intros y Hy. apply Hw. right. exact (Permutation_in _ (sort_perm _ l) Hy). }
  assert (Hx : (0 < TxInfo.weight x)%Z) by (apply Hw; now left).
  clear IH Hw. induction (sort comparePlain l) as [|y s IHs]; [reflexivity|].
  cbn [insert]. unfold comparePlain at 1.
  rewrite !feePerWeight_ratio by (try assumption; apply Hin; now left).
  cbn [nsub npos].
  destruct (Qltb 0 (ratio y - ratio x)) eqn:E; [|reflexivity].
  apply Qltb_lt in E. cbn [filter].
  rewrite IHs by (intros; apply Hin; now right).
  destruct (Qeq_bool (ratio x) r) eqn:Ex; [|reflexivity].
  rewrite Qeq_bool_false; [reflexivity|].
  apply Qeq_bool_iff in Ex. intros Ey. lra.
Qed.

Close Scope Q_scope.

(** ** Merkle tree *)

Lemma pair_induction {A : Type} (P : list A -> Prop) :
  P [] -> (forall x, P [x]) -> (forall x y l, P l -> P (x :: y :: l)) ->
  forall l, P l.
Proof.
  intros H0 H1 H2.
  assert (H : forall l, P l /\ forall x, P (x :: l)).
  { induction l as [|y l [IH1 IH2]]; split; auto. }
  intros l. apply H.
Qed.

Lemma at_index_some (ns : list MerkleNode) (i : nat) (n : MerkleNode) :
  nth_error ns i = Some n -> at_index (map Some ns) i = Some n.
Proof.
  intros H. unfold at_index. now rewrite nth_error_map, H.
Qed.

Lemma leaves_loop (leaves : list string) : forall acc,
  for_of leaves newMerkTree_leaf acc = Ok (acc ++ map Some (map leafNode leaves)).
Proof.
  induction leaves as [|leaf rest IH]; intros acc; cbn [for_of map].
  - now rewrite app_nil_r.
  - unfold newMerkTree_leaf at 1. cbn [newMerknode bind].
    rewrite IH, <- app_assoc. reflexivity.
Qed.

Lemma pairNodes_length (ns : list MerkleNode) :
  List.length (pairNodes ns) = Nat.div (S (List.length ns)) 2.
Proof.
  induction ns as [| |x y l IH] using pair_induction; try reflexivity.
  cbn [pairNodes List.length]. rewrite IH.
  change (S (S (S (List.length l)))) with (2 + S (List.length l))%nat.
  replace (2 + S (List.length l))%nat with (S (List.length l) + 1 * 2)%nat by lia.
  rewrite Nat.div_add by lia. lia.
Qed.

Lemma pairNodes_data (ns : list MerkleNode) :
  map node_data (pairNodes ns) = merkleLevel_spec (map node_data ns).
Proof.
  induction ns as [| |x y l IH] using pair_induction; try reflexivity.
  cbn [pairNodes map merkleLevel_spec]. now rewrite IH.
Qed.

(** On an array of even length the loop never pushes and pairs the
    entries from index [i] on. *)
Lemma level_even (rest : list MerkleNode) : forall done acc fuel,
  (List.length (done ++ rest) mod 2 = 0)%nat ->
  (List.length done mod 2 = 0)%nat ->
  (List.length rest / 2 < fuel)%nat ->
  newMerkTree_level fuel (map Some (done ++ rest)) (List.length done) acc
  = Ok (acc ++ map Some (pairNodes rest)).
Proof.
  induction rest as [|x|x y l IH] using pair_induction; intros done acc fuel He Hd Hf.
  - destruct fuel as [|fuel]; [cbn in Hf; lia|]. cbn [newMerkTree_level].
    rewrite length_map, app_nil_r, Nat.ltb_irrefl. cbn. now rewrite app_nil_r.
  - exfalso. rewrite length_app in He. cbn [List.length] in He.
    rewrite Nat.add_1_r in He.
    pose proof (Nat.mod_upper_bound (List.length done) 2).
    pose proof (Nat.div_mod_eq (List.length done) 2).
    pose proof (Nat.div_mod_eq (S (List.length done)) 2). lia.
  - destruct fuel as [|fuel].
    { exfalso. lia. }
    cbn [newMerkTree_level]. rewrite length_map.
    assert (Hlt : (List.length done <? List.length (done ++ x :: y :: l))%nat = true).
    { apply Nat.ltb_lt. rewrite length_app. cbn. lia. }
    rewrite Hlt, He. cbn [Nat.eqb negb].
    rewrite (at_index_some _ _ x), (at_index_some _ _ y).
    2:{ rewrite nth_error_app2 by lia.
        replace (List.length done + 1 - List.length done)%nat with 1%nat by lia.
        reflexivity. }
    2:{ rewrite nth_error_app2 by lia. now rewrite Nat.sub_diag. }
    cbn [newMerknode bind]. fold (parentNode x y).
    replace (done ++ x :: y :: l) with ((done ++ [x; y]) ++ l)
      by (now rewrite <- app_assoc).
    replace (List.length done + 2)%nat with (List.length (done ++ [x; y]))
      by (rewrite length_app; reflexivity).
    rewrite IH.
    + cbn [pairNodes map]. now rewrite <- app_assoc.
    + rewrite <- app_assoc. exact He.
    + rewrite length_app. cbn [List.length].
      replace (List.length done + 2)%nat with (List.length done + 1 * 2)%nat by lia.
      now rewrite Nat.Div0.mod_add.
    + cbn [List.length] in Hf.
      change (S (S (List.length l))) with (2 + List.length l)%nat in Hf.
      replace (2 + List.length l)%nat with (List.length l + 1 * 2)%nat in Hf by lia.
      rewrite Nat.div_add in Hf by lia. lia.
Qed.

(** On an array of odd length the first pass through the body pushes a
    copy of the last entry; the loop then behaves as on the longer
    array. *)
Lemma level_odd_push (nodes : list (option MerkleNode)) (i fuel : nat)
    (acc : list (option MerkleNode)) :
  (List.length nodes mod 2 = 1)%nat -> (i < List.length nodes)%nat ->
  newMerkTree_level fuel nodes i acc
  = newMerkTree_level fuel (nodes ++ [at_index nodes (List.length nodes - 1)]) i acc.
Proof.
  intros Ho Hi. destruct fuel as [|fuel]; [reflexivity|].
  cbn [newMerkTree_level].
  assert (E1 : (i <? List.length nodes)%nat = true) by now apply Nat.ltb_lt.
  assert (E2 : (i <? List.length (nodes ++ [at_index nodes (List.length nodes - 1)]))%nat
               = true).
  { apply Nat.ltb_lt. rewrite length_app. cbn. lia. }
  assert (E3 : (List.length (nodes ++ [at_index nodes (List.length nodes - 1)]) mod 2 = 0)%nat).
  { rewrite length_app. cbn [List.length].
    pose proof (Nat.div_mod_eq (List.length nodes) 2).
    pose proof (Nat.div_mod_eq (List.length nodes + 1) 2).
    pose proof (Nat.mod_upper_bound (List.length nodes + 1) 2). lia. }
  rewrite E1, E2, E3, Ho. reflexivity.
Qed.

Lemma pairNodes_odd (ns : list MerkleNode) (d : MerkleNode) :
  (List.length ns mod 2 = 1)%nat -> pairNodes (ns ++ [last ns d]) = pairNodes ns.
Proof.
  induction ns as [|x|x y l IH] using pair_induction; intros Ho.
  - discriminate Ho.
  - reflexivity.
  - cbn [app pairNodes]. f_equal.
    replace (last (x :: y :: l) d) with (last l d).
    + apply IH. cbn [List.length] in Ho.
      change (S (S (List.length l))) with (2 + List.length l)%nat in Ho.
      replace (2 + List.length l)%nat with (List.length l + 1 * 2)%nat in Ho by lia.
      now rewrite Nat.Div0.mod_add in Ho.
    + destruct l as [|z l]; [discriminate Ho | reflexivity].
Qed.

Lemma nth_error_last_entry {A : Type} (l : list A) (d : A) :
  l <> [] -> nth_error l (List.length l - 1) = Some (last l d).
Proof.
  induction l as [|x l IH]; intros H; [contradiction|].
  destruct l as [|y l]; [reflexivity|].
  replace (List.length (x :: y :: l) - 1)%nat with (S (List.length (y :: l) - 1))
    by (cbn [List.length]; lia).
  cbn [nth_error]. change (last (x :: y :: l) d) with (last (y :: l) d).
  apply IH. discriminate.
Qed.

Lemma parity_cases (n : nat) : (n mod 2 = 0)%nat \/ (n mod 2 = 1)%nat.
Proof. pose proof (Nat.mod_upper_bound n 2). lia. Qed.

(** One round of the [while] loop turns the array into its parents. *)
Lemma level_pairs (ns : list MerkleNode) :
  ns <> [] ->
  newMerkTree_level (S (List.length (map Some ns))) (map Some ns) 0 []
  = Ok (map Some (pairNodes ns)).
Proof.
  intros Hne. rewrite length_map.
  assert (Hdiv : forall k, (k / 2 < S k)%nat).
  { intros k. pose proof (Nat.div_mod_eq k 2). lia. }
  destruct (parity_cases (List.length ns)) as [He|Ho].
  - apply (level_even ns [] []); [exact He | reflexivity | apply Hdiv].
  - destruct ns as [|n0 ns']; [contradiction|]. set (ns := n0 :: ns') in *.
    rewrite level_odd_push;
      [| now rewrite length_map | rewrite length_map; cbn; lia].
    rewrite length_map.
    rewrite (at_index_some ns _ (last ns n0)) by now apply nth_error_last_entry.
    change [Some (last ns n0)] with (map Some [last ns n0]).
    rewrite <- map_app.
    rewrite (level_even (ns ++ [last ns n0]) [] []).
    + now rewrite pairNodes_odd.
    + cbn [app]. rewrite length_app. cbn [List.length].
      pose proof (Nat.div_mod_eq (List.length ns) 2).
      pose proof (Nat.div_mod_eq (List.length ns + 1) 2).
      pose proof (Nat.mod_upper_bound (List.length ns + 1) 2). lia.
    + reflexivity.
    + rewrite length_app. cbn [List.length].
      pose proof (Nat.div_mod_eq (List.length ns + 1) 2). lia.
Qed.

(** The [while] loop ends with a single node, whose digest is the one the
    level-by-level reduction of the digests arrives at. *)
Lemma while_reduces (fuel : nat) : forall ns : list MerkleNode,
  ns <> [] -> (List.length ns <= fuel)%nat ->
  exists root,
    newMerkTree_while fuel (map Some ns) = Ok [Some root] /\
    (forall g, (List.length ns <= g)%nat ->
       merkleReduce_spec g (map node_data ns) = Some (node_data root)) /\
    (forall n, ns = [n] -> root = n).
Proof.
  induction fuel as [|fuel IH]; intros ns Hne Hlen.
  - destruct ns; [contradiction | cbn in Hlen; lia].
  - destruct ns as [|a [|b l]]; [contradiction | |].
    + exists a. split; [reflexivity|]. split.
      * intros g _. destruct g; reflexivity.
      * intros n E. now injection E.
    + set (ns := a :: b :: l) in *.
      assert (Hlen2 : (2 <= List.length ns)%nat) by (cbn; lia).
      assert (Hp : (List.length (pairNodes ns) <= List.length ns - 1)%nat).
      { rewrite pairNodes_length.
        pose proof (Nat.div_mod_eq (S (List.length ns)) 2).
        pose proof (Nat.mod_upper_bound (S (List.length ns)) 2). lia. }
      destruct (IH (pairNodes ns)) as (root & Hw & Hs & _);
        [discriminate | lia |].
      exists root. split; [|split].
      * cbn [newMerkTree_while].
        replace (1 <? List.length (map Some ns))%nat with true
          by (symmetry; apply Nat.ltb_lt; rewrite length_map; lia).
        rewrite level_pairs by discriminate. cbn [bind]. exact Hw.
      * intros g Hg. destruct g as [|g]; [lia|].
        change (merkleReduce_spec (S g) (map node_data ns))
          with (merkleReduce_spec g (merkleLevel_spec (map node_data ns))).
        rewrite <- pairNodes_data. apply Hs. lia.
      * intros n E. discriminate E.
Qed.

(** C4: for a non-empty list of ids [newMerkTree] returns a node whose
    digest is the root of the classic construction on the reversed ids
    (neighbours hashed together with [doubleHash], the last node of an
    odd level paired with itself, at every level); for a single id the
    returned node is the leaf itself, no hash applied. *)
Theorem newMerkTree_classic (leaves : list string) :
  leaves <> [] ->
  exists root,
    newMerkTree leaves = Ok (Some root) /\
    merkleRoot_spec leaves = Some (node_data root) /\
    (forall id, leaves = [id] ->
       root = mkMerkleNode None (rev (from_hex id)) None).
Proof.
  intros Hne. unfold newMerkTree. rewrite leaves_loop. cbn [app bind].
  destruct (while_reduces (S (List.length (map Some (map leafNode leaves))))
              (map leafNode leaves)) as (root & Hw & Hs & H1).
  - destruct leaves; [contradiction | discriminate].
  - rewrite !length_map. lia.
  - exists root. rewrite Hw. cbn [bind]. split; [reflexivity|]. split.
    + unfold merkleRoot_spec.
      rewrite <- (Hs (List.length leaves)) by (rewrite length_map; lia).
      now rewrite map_map.
    + intros id ->. now apply H1.
Qed.

Lemma newMerkTree_classic_witness :
  exists root,
    newMerkTree [idA; idB; zeros64] = Ok (Some root) /\
    merkleRoot_spec [idA; idB; zeros64] = Some (node_data root).
Proof.
  destruct (newMerkTree_classic [idA; idB; zeros64]) as (root & H1 & H2 & _).
  - discriminate.
  - exists root. split; assumption.
Defined.

(** The three-leaf case written out: the third leaf is paired with
    itself. *)
Example merkleRoot_three_leaves (a b c : string) :
  merkleRoot_spec [a; b; c]
  = Some (doubleHash (doubleHash (rev (from_hex a) ++ rev (from_hex b))
                      ++ doubleHash (rev (from_hex c) ++ rev (from_hex c)))).
Proof. reflexivity. Qed.

(** Five leaves: the padding is applied again at the level of three. *)
Example merkleRoot_five_leaves (a b c d e : bytes) :
  merkleReduce_spec 5 [a; b; c; d; e]
  = Some (doubleHash
            (doubleHash (doubleHash (a ++ b) ++ doubleHash (c ++ d))
             ++ doubleHash (doubleHash (e ++ e) ++ doubleHash (e ++ e)))).
Proof. reflexivity. Qed.

Example newMerkTree_empty : newMerkTree [] = Ok None.
Proof. reflexivity. Qed.

(** ** Proof of work *)

Lemma set_nonce_nonce (bh : BlockHeader) : set_nonce bh (BlockHeader.nonce bh) = bh.
Proof. now destruct bh. Qed.

(** One trial on a header whose fields fit their widths: nothing is
    raised, and the outcome is the comparison of the reversed double hash
    with the target. *)
Lemma meetsTarget_in_range (bh : BlockHeader) :
  0 <= BlockHeader.version bh <= 4294967295 ->
  0 <= BlockHeader.timestamp bh <= 4294967295 ->
  0 <= BlockHeader.bits bh <= 4294967295 ->
  0 <= BlockHeader.nonce bh <= 4294967295 ->
  exists b, meetsTarget bh = Ok b.
Proof.
  intros Hv Ht Hb Hn. unfold meetsTarget, blockHeaderSerialdata.
  rewrite !iTo32b_ok by assumption. cbn [bind].
  unfold compArrays, len, reversebyte.
  rewrite length_rev, !sha_length.
  replace (List.length (from_hex target)) with 32%nat by reflexivity.
  rewrite Z.eqb_refl. cbn [negb bind].
  eexists. reflexivity.
Qed.

(** One trial past the end of the domain: the nonce no longer fits the
    4-octet field and the header serializer raises. *)
Lemma meetsTarget_past_domain (bh : BlockHeader) :
  0 <= BlockHeader.version bh <= 4294967295 ->
  0 <= BlockHeader.timestamp bh <= 4294967295 ->
  0 <= BlockHeader.bits bh <= 4294967295 ->
  4294967295 < BlockHeader.nonce bh ->
  meetsTarget bh = Throw RangeError.
Proof.
  intros Hv Ht Hb Hn. unfold meetsTarget, blockHeaderSerialdata.
  rewrite !iTo32b_ok by assumption. cbn [bind].
  rewrite iTo32b_out_of_range by (right; exact Hn). reflexivity.
Qed.

Section Exhaustion.
Variable bh0 : BlockHeader.
Hypothesis version_fits : 0 <= BlockHeader.version bh0 <= 4294967295.
Hypothesis timestamp_fits : 0 <= BlockHeader.timestamp bh0 <= 4294967295.
Hypothesis bits_fits : 0 <= BlockHeader.bits bh0 <= 4294967295.

(** The search from nonce [n] on, when no nonce from [n] to the end of
    the domain meets the target. *)
Lemma proofOfWork_runs_past_domain (k : nat) : forall (n : Z) (extra : nat),
  0 <= n -> n + Z.of_nat k = 4294967296 ->
  (forall m, n <= m <= 4294967295 -> meetsTarget (set_nonce bh0 m) <> Ok true) ->
  proofOfWork (S k + extra) (set_nonce bh0 n)
  = (Throw RangeError, set_nonce bh0 4294967296).
Proof.
  induction k as [|k IH]; intros n extra Hn Hk Hnever.
  - replace n with 4294967296 by lia. cbn [Nat.add proofOfWork].
    rewrite meetsTarget_past_domain; cbn; try assumption; try lia. reflexivity.
  - change (S (S k) + extra)%nat with (S (S k + extra)). cbn [proofOfWork].
    destruct (meetsTarget_in_range (set_nonce bh0 n)) as [b Eb];
      cbn; try assumption; try lia.
    rewrite Eb. destruct b.
    + exfalso. apply (Hnever n); [lia | exact Eb].
    + cbn [set_nonce BlockHeader.nonce].
      destruct (Z.ltb_spec n 0); [lia|].
      destruct (Z.gtb_spec n 4294967295); [lia|]. cbn [orb].
      apply IH; [lia | lia |].
      intros m Hm. apply Hnever. lia.
Qed.

(** With too little fuel the model has simply not finished. *)
Lemma proofOfWork_never_returns (fuel : nat) : forall (n : Z),
  0 <= n <= 4294967296 ->
  (forall m, n <= m <= 4294967295 -> meetsTarget (set_nonce bh0 m) <> Ok true) ->
  forall b, fst (proofOfWork fuel (set_nonce bh0 n)) <> Ok b.
Proof.
  induction fuel as [|fuel IH]; intros n Hn Hnever b; [discriminate|].
  cbn [proofOfWork].
  destruct (Z.eq_dec n 4294967296) as [->|Hne].
  - rewrite meetsTarget_past_domain; cbn; try assumption; try lia. discriminate.
  - destruct (meetsTarget_in_range (set_nonce bh0 n)) as [b' Eb];
      cbn; try assumption; try lia.
    rewrite Eb. destruct b'.
    + exfalso. apply (Hnever n); [lia | exact Eb].
    + cbn [set_nonce BlockHeader.nonce].
      destruct (Z.ltb_spec n 0); [lia|].
      destruct (Z.gtb_spec n 4294967295); [lia|]. cbn [orb].
      apply IH; [lia|]. intros m Hm. apply Hnever. lia.
Qed.
End Exhaustion.

(** C2, what the code does: on a header whose integer fields fit and for
    which no nonce from its current one to [2^32 - 1] meets the target,
    [proofOfWork] does not return [false].  After the failed trial at
    [2^32 - 1] the test [nonce > 0xffffffff] is still false, the nonce
    becomes [2^32] (it is not wrapped), and the next header serialization
    raises a range error; no amount of fuel makes the call return. *)
Theorem proofOfWork_exhaustion_raises (bh : BlockHeader) :
  0 <= BlockHeader.version bh <= 4294967295 ->
  0 <= BlockHeader.timestamp bh <= 4294967295 ->
  0 <= BlockHeader.bits bh <= 4294967295 ->
  0 <= BlockHeader.nonce bh <= 4294967295 ->
  (forall n, BlockHeader.nonce bh <= n <= 4294967295 ->
     meetsTarget (set_nonce bh n) <> Ok true) ->
  (exists fuel, forall extra,
     proofOfWork (fuel + extra) bh = (Throw RangeError, set_nonce bh 4294967296)) /\
  (forall fuel b, fst (proofOfWork fuel bh) <> Ok b).
Proof.
  intros Hv Ht Hb Hn Hnever. split.
  - exists (S (Z.to_nat (4294967296 - BlockHeader.nonce bh))). intros extra.
    pose proof (proofOfWork_runs_past_domain bh Hv Ht Hb
                  (Z.to_nat (4294967296 - BlockHeader.nonce bh))
                  (BlockHeader.nonce bh) extra) as H.
    rewrite set_nonce_nonce in H. apply H; [lia | lia | exact Hnever].
  - intros fuel b.
    pose proof (proofOfWork_never_returns bh Hv Ht Hb fuel (BlockHeader.nonce bh)) as H.
    rewrite set_nonce_nonce in H. apply H; [lia | exact Hnever].
Qed.

Lemma proofOfWork_exhaustion_raises_witness :
  meetsTarget headerLast = Ok false /\
  proofOfWork 2 headerLast = (Throw RangeError, set_nonce headerLast 4294967296) /\
  (forall fuel, fst (proofOfWork fuel headerLast) <> Ok false).
Proof.
  assert (Hlast : meetsTarget headerLast = Ok false) by (vm_compute; reflexivity).
  destruct (proofOfWork_exhaustion_raises headerLast) as [_ Hno];
    try (cbn; lia).
  - intros n Hn. cbn in Hn. replace n with 4294967295 by lia.
    change (set_nonce headerLast 4294967295) with headerLast.
    rewrite Hlast. discriminate.
  - split; [exact Hlast|]. split; [vm_compute; reflexivity|].
    intros fuel. apply Hno.
Defined.

(** * Further properties of the code *)

(** ** Octets *)

Lemma le_bytes_octets (k : nat) (n : Z) : octets (le_bytes k n).
Proof.
  unfold octets, le_bytes. apply Forall_forall. intros x Hx.
  apply in_map_iff in Hx. destruct Hx as (i & <- & _).
  pose proof (Z.mod_pos_bound (Z.shiftr n (8 * Z.of_nat i)) 256). lia.
Qed.

Lemma octets_app (a b : bytes) : octets a -> octets b -> octets (a ++ b).
Proof. unfold octets. intros. now apply Forall_app. Qed.

Lemma octets_rev (a : bytes) : octets a -> octets (rev a).
Proof. unfold octets. apply Forall_rev. Qed.

Lemma hex_digit_range (c : ascii) (d : Z) : hex_digit c = Some d -> 0 <= d <= 15.
Proof.
  unfold hex_digit. set (n := Z.of_nat (nat_of_ascii c)).
  destruct ((48 <=? n) && (n <=? 57)) eqn:E1.
  { apply andb_true_iff in E1. destruct E1 as [A B].
    apply Z.leb_le in A. apply Z.leb_le in B.
    intros H. injection H as <-. lia. }
  destruct ((97 <=? n) && (n <=? 102)) eqn:E2.
  { apply andb_true_iff in E2. destruct E2 as [A B].
    apply Z.leb_le in A. apply Z.leb_le in B.
    intros H. injection H as <-. lia. }
  destruct ((65 <=? n) && (n <=? 70)) eqn:E3; [|discriminate].
  apply andb_true_iff in E3. destruct E3 as [A B].
  apply Z.leb_le in A. apply Z.leb_le in B.
  intros H. injection H as <-. lia.
Qed.

(** Induction on a string two characters at a time. *)
Lemma string_pair_induction (P : string -> Prop) :
  P EmptyString -> (forall c, P (String c EmptyString)) ->
  (forall c1 c2 s, P s -> P (String c1 (String c2 s))) ->
  forall s, P s.
Proof.
  intros H0 H1 H2.
  assert (H : forall s, P s /\ forall c, P (String c s)).
  { induction s as [|c s [IH1 IH2]]; split; auto. }
  intros s. apply H.
Qed.

Lemma from_hex_octets (s : string) : octets (from_hex s).
Proof.
  induction s as [|c|c1 c2 s IH] using string_pair_induction;
    try (constructor; fail).
  cbn [from_hex].
  destruct (hex_digit c1) as [h|] eqn:E1; [|constructor].
  destruct (hex_digit c2) as [l|] eqn:E2; [|constructor].
  constructor; [|exact IH].
  apply hex_digit_range in E1. apply hex_digit_range in E2. lia.
Qed.

Lemma hex_digit_hex_char (n : Z) : 0 <= n <= 15 -> hex_digit (hex_char n) = Some n.
Proof.
  intros H.
  pose (ok := fun k => match hex_digit (hex_char k) with
                       | Some d => d =? k
                       | None => false
                       end).
  assert (A : forallb ok (map Z.of_nat (seq 0 16)) = true) by reflexivity.
  rewrite forallb_forall in A.
  assert (Hin : In n (map Z.of_nat (seq 0 16))).
  { apply in_map_iff. exists (Z.to_nat n). split; [lia|]. apply in_seq. lia. }
  apply A in Hin. unfold ok in Hin.
  destruct (hex_digit (hex_char n)) as [d|]; [|discriminate].
  apply Z.eqb_eq in Hin. now subst.
Qed.

(** [Buffer.from(buf.toString("hex"), "hex")] gives the octets back. *)
Lemma from_hex_to_hex (b : bytes) : octets b -> from_hex (to_hex b) = b.
Proof.
  induction 1 as [|x b Hx Hb IH]; [reflexivity|].
  cbn [to_hex from_hex].
  rewrite !hex_digit_hex_char.
  - rewrite IH. f_equal. Z.div_mod_to_equations. lia.
  - Z.div_mod_to_equations. lia.
  - Z.div_mod_to_equations. lia.
Qed.

Lemma from_hex_app (b : bytes) (s : string) :
  octets b -> from_hex (to_hex b ++ s) = b ++ from_hex s.
Proof.
  induction 1 as [|x b Hx Hb IH]; [reflexivity|].
  cbn [to_hex from_hex String.append app].
  rewrite !hex_digit_hex_char.
  - rewrite IH. f_equal. Z.div_mod_to_equations. lia.
  - Z.div_mod_to_equations. lia.
  - Z.div_mod_to_equations. lia.
Qed.

Lemma to_hex_length (b : bytes) :
  String.length (to_hex b) = (2 * List.length b)%nat.
Proof.
  induction b as [|x b IH]; [reflexivity|].
  cbn [to_hex String.length List.length]. rewrite IH. lia.
Qed.

Lemma add32_range (x y : Z) : 0 <= SHA256.add32 x y < 4294967296.
Proof. unfold SHA256.add32. apply Z.mod_pos_bound. lia. Qed.

Lemma digest_octets (a : Z) :
  0 <= a < 4294967296 ->
  octets [Z.shiftr a 24; Z.shiftr a 16 mod 256; Z.shiftr a 8 mod 256; a mod 256].
Proof.
  intros H. unfold octets. repeat constructor;
    try (pose proof (Z.mod_pos_bound (Z.shiftr a 16) 256);
         pose proof (Z.mod_pos_bound (Z.shiftr a 8) 256);
         pose proof (Z.mod_pos_bound a 256); lia).
  - apply Z.shiftr_nonneg. lia.
  - rewrite Z.shiftr_div_pow2 by lia. change (2 ^ 24) with 16777216.
    apply Z.lt_succ_r. apply Z.div_lt_upper_bound; lia.
Qed.

Lemma compress_wordState (s : SHA256.state) (blk : bytes) :
  wordState (SHA256.compress s blk).
Proof.
  unfold SHA256.compress.
  destruct (fold_left SHA256.round _ s) as [[[[[[[a b] c] d] e] f] g] h].
  destruct s as [[[[[[[a0 b0] c0] d0] e0] f0] g0] h0].
  unfold wordState. repeat split; apply add32_range.
Qed.

Lemma fold_left_keeps {A B : Type} (P : A -> Prop) (f : A -> B -> A) (l : list B) :
  (forall a b, P (f a b)) -> forall a, P a -> P (fold_left f l a).
Proof.
  intros Hf. induction l as [|b l IH]; intros a Ha; [exact Ha|].
  cbn [fold_left]. apply IH, Hf.
Qed.

(** Every entry of a digest is an octet. *)
Lemma sha_octets (data : bytes) : octets (sha data).
Proof.
  unfold sha, SHA256.hash.
  set (bl := SHA256.blocks _ _).
  assert (H : wordState (fold_left SHA256.compress bl SHA256.initial)).
  { apply (fold_left_keeps wordState SHA256.compress bl compress_wordState).
    unfold wordState, SHA256.initial. lia. }
  destruct (fold_left SHA256.compress bl SHA256.initial)
    as [[[[[[[a b] c] d] e] f] g] h].
  destruct H as [(Ha & Hb & Hc & Hd) (He & Hf & Hg & Hh)].
  unfold SHA256.digest_of.
  apply (octets_app [_; _; _; _]); [now apply digest_octets|].
  apply (octets_app [_; _; _; _]); [now apply digest_octets|].
  apply (octets_app [_; _; _; _]); [now apply digest_octets|].
  apply (octets_app [_; _; _; _]); [now apply digest_octets|].
  apply (octets_app [_; _; _; _]); [now apply digest_octets|].
  apply (octets_app [_; _; _; _]); [now apply digest_octets|].
  apply (octets_app [_; _; _; _]); [now apply digest_octets|].
  now apply digest_octets.
Qed.

(** ** Fixed-width integers *)

(** X1: [iTo16b], [iTo32b] and [ito64b] succeed exactly on the unsigned
    values of their width; the result has 2, 4 or 8 entries, all octets,
    and reads back little-endian as the argument.  Any other integer
    raises a range error. *)
Theorem fixedWidth_writes (n : Z) :
  ((0 <= n <= 65535 ->
      exists b, iTo16b n = Ok b /\ List.length b = 2%nat /\ octets b /\ le_value b = n) /\
   (n < 0 \/ 65535 < n -> iTo16b n = Throw RangeError)) /\
  ((0 <= n <= 4294967295 ->
      exists b, iTo32b n = Ok b /\ List.length b = 4%nat /\ octets b /\ le_value b = n) /\
   (n < 0 \/ 4294967295 < n -> iTo32b n = Throw RangeError)) /\
  ((0 <= n <= 18446744073709551615 ->
      exists b, ito64b n = Ok b /\ List.length b = 8%nat /\ octets b /\ le_value b = n) /\
   (n < 0 \/ 18446744073709551615 < n -> ito64b n = Throw RangeError)).
Proof.
  repeat apply conj; intros H.
  - exists (le_bytes 2 n). rewrite iTo16b_ok by lia.
    repeat apply conj; [reflexivity | apply le_bytes_length | apply le_bytes_octets |].
    apply le_value_le_bytes. change (2 ^ (8 * Z.of_nat 2)) with 65536. lia.
  - unfold iTo16b.
    destruct (Z.leb_spec 0 n), (Z.leb_spec n 65535); try reflexivity; lia.
  - exists (le_bytes 4 n). rewrite iTo32b_ok by lia.
    repeat apply conj; [reflexivity | apply le_bytes_length | apply le_bytes_octets |].
    apply le_value_le_bytes. change (2 ^ (8 * Z.of_nat 4)) with 4294967296. lia.
  - now apply iTo32b_out_of_range.
  - exists (le_bytes 8 n). rewrite ito64b_ok by lia.
    repeat apply conj; [reflexivity | apply le_bytes_length | apply le_bytes_octets |].
    apply le_value_le_bytes.
    change (2 ^ (8 * Z.of_nat 8)) with 18446744073709551616. lia.
  - unfold ito64b.
    destruct (Z.leb_spec 0 n), (Z.leb_spec n 18446744073709551615);
      try reflexivity; lia.
Qed.

(** ** Variable-length integers *)

Lemma serInt_nonneg_cases (n : Z) (a : bytes) :
  0 <= n -> serInt n = Ok a ->
  (n < 253 /\ a = [n]) \/
  (253 <= n <= 65535 /\ a = 253 :: le_bytes 2 n) \/
  (65535 < n <= 4294967295 /\ a = 254 :: le_bytes 4 n) \/
  (4294967295 < n <= 18446744073709551615 /\ a = 255 :: le_bytes 8 n).
Proof.
  intros Hn. unfold serInt.
  destruct (Z.ltb_spec n 253) as [H1|H1].
  { rewrite Z.mod_small by lia. intros E. injection E as <-. left. split; [lia | reflexivity]. }
  destruct (Z.leb_spec n 65535) as [H2|H2].
  { rewrite iTo16b_ok by lia. intros E. injection E as <-.
    right; left. split; [lia | reflexivity]. }
  destruct (Z.leb_spec n 4294967295) as [H3|H3].
  { rewrite iTo32b_ok by lia. intros E. injection E as <-.
    right; right; left. split; [lia | reflexivity]. }
  unfold ito64b. destruct (Z.leb_spec 0 n); [|lia].
  destruct (Z.leb_spec n 18446744073709551615); cbn [andb bind]; [|discriminate].
  intros E. injection E as <-. right; right; right. split; [lia | reflexivity].
Qed.

Lemma app_same_length {A : Type} (a : list A) : forall (b r1 r2 : list A),
  List.length a = List.length b -> a ++ r1 = b ++ r2 -> a = b /\ r1 = r2.
Proof.
  induction a as [|x a IH]; intros [|y b] r1 r2 Hlen E; try discriminate.
  - split; [reflexivity | exact E].
  - injection Hlen as Hlen. injection E as -> E.
    destruct (IH b r1 r2 Hlen E) as [-> ->]. split; reflexivity.
Qed.

(** X2: on non-negative integers [serInt] is a prefix code: if the
    encodings of [n] and [m], each followed by anything, give the same
    octets, then [n = m] and what follows is the same.  In particular the
    encoding is injective and a parser can find where it ends. *)
Theorem serInt_prefix_code (n m : Z) (a b r1 r2 : bytes) :
  0 <= n -> 0 <= m ->
  serInt n = Ok a -> serInt m = Ok b ->
  a ++ r1 = b ++ r2 ->
  n = m /\ r1 = r2.
Proof.
  intros Hn Hm Ea Eb E.
  pose proof (f_equal (hd 0) E) as Hhd.
  destruct (serInt_nonneg_cases n a Hn Ea) as [[Rn ->]|[[Rn ->]|[[Rn ->]|[Rn ->]]]];
  destruct (serInt_nonneg_cases m b Hm Eb) as [[Rm ->]|[[Rm ->]|[[Rm ->]|[Rm ->]]]];
  cbn [hd app] in Hhd; try lia;
  (apply app_same_length in E;
   [|cbn [List.length]; rewrite ?le_bytes_length; reflexivity]);
  destruct E as [E1 E2]; (split; [|exact E2]).
  - congruence.
  - assert (E : le_bytes 2 n = le_bytes 2 m) by congruence.
    rewrite <- (le_value_le_bytes 2 n), <- (le_value_le_bytes 2 m), E;
      try reflexivity; change (2 ^ (8 * Z.of_nat 2)) with 65536; lia.
  - assert (E : le_bytes 4 n = le_bytes 4 m) by congruence.
    rewrite <- (le_value_le_bytes 4 n), <- (le_value_le_bytes 4 m), E;
      try reflexivity; change (2 ^ (8 * Z.of_nat 4)) with 4294967296; lia.
  - assert (E : le_bytes 8 n = le_bytes 8 m) by congruence.
    rewrite <- (le_value_le_bytes 8 n), <- (le_value_le_bytes 8 m), E;
      try reflexivity; change (2 ^ (8 * Z.of_nat 8)) with 18446744073709551616; lia.
Qed.

Lemma serInt_prefix_code_witness : 300 = 300 /\ [7; 8] = [7; 8].
Proof.
  apply (serInt_prefix_code 300 300 [253; 44; 1] [253; 44; 1] [7; 8] [7; 8]);
    try lia; reflexivity.
Defined.

(** Without the sign condition the code is ambiguous: the octet [255]
    encodes [-1] and also opens every 9-octet encoding. *)
Example serInt_negative_ambiguous :
  serInt (-1) = Ok [255] /\
  exists rest, serInt 4294967296 = Ok ([255] ++ rest).
Proof. split; [reflexivity|]. eexists. reflexivity. Qed.

(** ** Comparison of octet strings *)

Lemma be_value_bound (b : bytes) : octets b -> 0 <= be_value b < 256 ^ len b.
Proof.
  induction 1 as [|x b Hx Hb IH]; [cbn; lia|].
  cbn [be_value]. unfold len in *. cbn [List.length].
  rewrite Nat2Z.inj_succ, Z.pow_succ_r by lia.
  set (P := 256 ^ Z.of_nat (List.length b)) in *.
  assert (HP : 0 < P) by (apply Z.pow_pos_nonneg; lia).
  nia.
Qed.

Lemma compArrays_from_cases (a : bytes) : forall b : bytes,
  List.length a = List.length b -> octets a -> octets b ->
  (compArrays_from a b = -1 /\ be_value a < be_value b) \/
  (compArrays_from a b = 0 /\ a = b) \/
  (compArrays_from a b = 1 /\ be_value b < be_value a).
Proof.
  induction a as [|x a IH]; intros [|y b] Hlen Ha Hb; try discriminate.
  - right; left. split; reflexivity.
  - injection Hlen as Hlen. inversion Ha as [|? ? Hx Ha']; subst.
    inversion Hb as [|? ? Hy Hb']; subst.
    cbn [compArrays_from be_value]. unfold len. rewrite Hlen.
    pose proof (be_value_bound a Ha') as Ba. pose proof (be_value_bound b Hb') as Bb.
    unfold len in Ba, Bb. rewrite Hlen in Ba.
    set (P := 256 ^ Z.of_nat (List.length b)) in *.
    destruct (Z.ltb_spec x y) as [Hlt|Hge].
    + left. split; [reflexivity|]. nia.
    + destruct (Z.gtb_spec x y) as [Hgt|Hle].
      * right; right. split; [reflexivity|]. nia.
      * assert (x = y) by lia. subst y.
        destruct (IH b Hlen Ha' Hb') as [[E H]|[[E H]|[E H]]]; rewrite E.
        -- left. split; [reflexivity | lia].
        -- right; left. split; [reflexivity | now subst].
        -- right; right. split; [reflexivity | lia].
Qed.

(** X3: [compArrays] raises exactly when the lengths differ; on octet
    strings of equal length its result is -1, 0 or 1 according as the
    first string, read as a big-endian number, is smaller than, equal to
    or greater than the second, and 0 is returned only for equal
    strings. *)
Theorem compArrays_order (a b : bytes) :
  (List.length a <> List.length b -> compArrays a b = Throw NotSameLength) /\
  (List.length a = List.length b -> octets a -> octets b ->
   exists c, compArrays a b = Ok c /\
     (c = -1 <-> be_value a < be_value b) /\
     (c = 0 <-> a = b) /\
     (c = 1 <-> be_value b < be_value a)).
Proof.
  split.
  - intros H. unfold compArrays, len.
    destruct (Z.eqb_spec (Z.of_nat (List.length a)) (Z.of_nat (List.length b)));
      [lia | reflexivity].
  - intros Hlen Ha Hb. unfold compArrays, len. rewrite Hlen, Z.eqb_refl. cbn [negb].
    eexists. split; [reflexivity|].
    destruct (compArrays_from_cases a b Hlen Ha Hb) as [[E H]|[[E H]|[E H]]];
      rewrite E; repeat split; intros; subst; try lia; try discriminate; try reflexivity.
Qed.

Lemma compArrays_order_witness :
  exists c, compArrays [0; 0; 255] [0; 1; 0] = Ok c /\ (c = -1 <-> 255 < 256).
Proof.
  destruct (proj2 (compArrays_order [0; 0; 255] [0; 1; 0])) as (c & E & H & _).
  - reflexivity.
  - repeat constructor; lia.
  - repeat constructor; lia.
  - exists c. split; [exact E | exact H].
Defined.

(** ** Proof of work: the test and the successful search *)

Lemma blockHeaderSerialdata_in_range (bh : BlockHeader) :
  u32 (BlockHeader.version bh) -> u32 (BlockHeader.timestamp bh) ->
  u32 (BlockHeader.bits bh) -> u32 (BlockHeader.nonce bh) ->
  blockHeaderSerialdata bh = Ok (headerVerbatim bh).
Proof.
  unfold u32. intros Hv Ht Hb Hn. unfold blockHeaderSerialdata, headerVerbatim.
  rewrite !iTo32b_ok by assumption. cbn [bind].
  rewrite <- !app_assoc. reflexivity.
Qed.

Lemma be_value_app (a b : bytes) :
  be_value (a ++ b) = be_value a * 256 ^ len b + be_value b.
Proof.
  induction a as [|x a IH]; [cbn; lia|].
  cbn [app be_value]. rewrite IH. unfold len. rewrite length_app, Nat2Z.inj_add.
  rewrite Z.pow_add_r by lia. ring.
Qed.

Lemma be_value_rev (b : bytes) : be_value (rev b) = le_value b.
Proof.
  induction b as [|x b IH]; [reflexivity|].
  cbn [rev le_value]. rewrite be_value_app, IH.
  unfold len. cbn [List.length be_value].
  change (Z.of_nat 1) with 1. change (Z.of_nat 0) with 0.
  rewrite Z.pow_1_r, Z.pow_0_r. lia.
Qed.

Lemma target_value : be_value (from_hex target) = 65535 * 2 ^ 224.
Proof. vm_compute. reflexivity. Qed.

(** X4: on a header whose four integer fields fit 32 bits, one trial of
    the search raises nothing and succeeds exactly when the double hash
    of the 80-octet serialization, read as a little-endian number, is
    below [0xffff * 2^224]. *)
Theorem meetsTarget_numeric (bh : BlockHeader) :
  u32 (BlockHeader.version bh) -> u32 (BlockHeader.timestamp bh) ->
  u32 (BlockHeader.bits bh) -> u32 (BlockHeader.nonce bh) ->
  exists b, meetsTarget bh = Ok b /\
    (b = true <-> le_value (doubleHash (headerVerbatim bh)) < 65535 * 2 ^ 224).
Proof.
  intros Hv Ht Hb Hn. unfold meetsTarget.
  rewrite blockHeaderSerialdata_in_range by assumption. cbn [bind].
  fold (doubleHash (headerVerbatim bh)). set (h := doubleHash (headerVerbatim bh)).
  assert (Hlen : List.length (reversebyte h) = List.length (from_hex target)).
  { unfold reversebyte, h, doubleHash. rewrite length_rev, sha_length. reflexivity. }
  assert (Ho : octets (reversebyte h)).
  { apply octets_rev. unfold h, doubleHash. apply sha_octets. }
  unfold compArrays, len. rewrite Hlen, Z.eqb_refl. cbn [negb bind].
  eexists. split; [reflexivity|].
  destruct (compArrays_from_cases _ _ Hlen Ho (from_hex_octets target))
    as [[E H]|[[E H]|[E H]]]; rewrite E;
    unfold reversebyte in H; try rewrite H; rewrite ?be_value_rev in H;
    rewrite ?target_value in H.
  - split; [intros _; exact H | reflexivity].
  - split; [discriminate|]. intros Hlt.
    assert (E' : le_value h = 65535 * 2 ^ 224).
    { rewrite <- be_value_rev, H. apply target_value. }
    lia.
  - split; [discriminate | lia].
Qed.

Lemma meetsTarget_numeric_witness :
  exists b, meetsTarget headerLast = Ok b /\
    (b = true <-> le_value (doubleHash (headerVerbatim headerLast)) < 65535 * 2 ^ 224).
Proof.
  apply (meetsTarget_numeric headerLast); unfold u32; cbn; lia.
Defined.

Lemma meetsTarget_nonce_fits (bh : BlockHeader) (b : bool) :
  meetsTarget bh = Ok b -> u32 (BlockHeader.nonce bh).
Proof.
  unfold meetsTarget, blockHeaderSerialdata.
  destruct (iTo32b (BlockHeader.version bh)); cbn [bind]; try discriminate.
  destruct (iTo32b (BlockHeader.timestamp bh)); cbn [bind]; try discriminate.
  destruct (iTo32b (BlockHeader.bits bh)); cbn [bind]; try discriminate.
  unfold iTo32b at 1.
  destruct (Z.leb_spec 0 (BlockHeader.nonce bh)),
           (Z.leb_spec (BlockHeader.nonce bh) 4294967295);
    cbn [andb bind]; try discriminate.
  intros _. split; assumption.
Qed.

(** The search never takes the [return false] branch. *)
Lemma proofOfWork_no_false (fuel : nat) : forall bh : BlockHeader,
  fst (proofOfWork fuel bh) <> Ok false.
Proof.
  induction fuel as [|fuel IH]; intros bh; [discriminate|].
  cbn [proofOfWork].
  destruct (meetsTarget bh) as [[|]| |] eqn:E; try discriminate.
  destruct (meetsTarget_nonce_fits bh false E) as [H0 H1].
  destruct (Z.ltb_spec (BlockHeader.nonce bh) 0); [lia|].
  destruct (Z.gtb_spec (BlockHeader.nonce bh) 4294967295); [lia|].
  cbn [orb]. apply IH.
Qed.

(** X6: when [proofOfWork] returns [true], the header it leaves differs
    from the one it was given in the nonce only, that nonce is not below
    the starting one, the header meets the target with it, and every
    nonce from the starting one up to it failed the test: the search
    stops at the first success. *)
Theorem proofOfWork_first_success (fuel : nat) : forall bh bh' : BlockHeader,
  proofOfWork fuel bh = (Ok true, bh') ->
  bh' = set_nonce bh (BlockHeader.nonce bh') /\
  BlockHeader.nonce bh <= BlockHeader.nonce bh' <= 4294967295 /\
  meetsTarget bh' = Ok true /\
  (forall m, BlockHeader.nonce bh <= m < BlockHeader.nonce bh' ->
     meetsTarget (set_nonce bh m) = Ok false).
Proof.
  induction fuel as [|fuel IH]; intros bh bh' H; [discriminate|].
  cbn [proofOfWork] in H.
  destruct (meetsTarget bh) as [[|]| |] eqn:E; try discriminate.
  - injection H as <-. rewrite set_nonce_nonce.
    destruct (meetsTarget_nonce_fits bh true E).
    repeat split; try assumption; try lia.
  - destruct (meetsTarget_nonce_fits bh false E) as [H0 H1].
    destruct (Z.ltb_spec (BlockHeader.nonce bh) 0); [lia|].
    destruct (Z.gtb_spec (BlockHeader.nonce bh) 4294967295); [lia|].
    cbn [orb] in H. apply IH in H. cbn [set_nonce BlockHeader.nonce] in H.
    destruct H as (Hbh & Hr & Hm & Hmin).
    repeat split; try assumption; try lia.
    intros m Hmr. destruct (Z.eq_dec m (BlockHeader.nonce bh)) as [->|Hne].
    + now rewrite set_nonce_nonce.
    + apply (Hmin m). lia.
Qed.

Lemma proofOfWork_first_success_witness :
  proofOfWork 3 headerNear = (Ok true, set_nonce headerB 23414) /\
  meetsTarget (set_nonce headerB 23414) = Ok true /\
  (forall m, 23412 <= m < 23414 -> meetsTarget (set_nonce headerNear m) = Ok false).
Proof.
  assert (H : proofOfWork 3 headerNear = (Ok true, set_nonce headerB 23414))
    by (vm_compute; reflexivity).
  split; [exact H|].
  destruct (proofOfWork_first_success 3 headerNear _ H) as (_ & _ & Hm & Hmin).
  split; [exact Hm | exact Hmin].
Defined.

(** X7: conversely, on a header whose other fields fit, if some nonce of
    the domain at or after the current one meets the target and none
    before it does, the search returns [true] with exactly that nonce,
    given one unit of fuel per trial. *)
Theorem proofOfWork_finds_first (bh : BlockHeader) (n : Z) :
  u32 (BlockHeader.version bh) -> u32 (BlockHeader.timestamp bh) ->
  u32 (BlockHeader.bits bh) ->
  0 <= BlockHeader.nonce bh <= n -> n <= 4294967295 ->
  meetsTarget (set_nonce bh n) = Ok true ->
  (forall m, BlockHeader.nonce bh <= m < n -> meetsTarget (set_nonce bh m) <> Ok true) ->
  forall extra,
    proofOfWork (S (Z.to_nat (n - BlockHeader.nonce bh)) + extra) bh
    = (Ok true, set_nonce bh n).
Proof.
  intros Hv Ht Hb Hn Hmax Hok Hnot extra.
  remember (Z.to_nat (n - BlockHeader.nonce bh)) as k eqn:Ek.
  revert bh Hv Ht Hb Hn Hok Hnot Ek.
  induction k as [|k IH]; intros bh Hv Ht Hb Hn Hok Hnot Ek.
  - assert (n = BlockHeader.nonce bh) by lia. subst n.
    rewrite set_nonce_nonce in *. cbn [Nat.add proofOfWork]. now rewrite Hok.
  - change (S (S k) + extra)%nat with (S (S k + extra)). cbn [proofOfWork].
    destruct (meetsTarget_in_range bh) as [b Eb]; try assumption.
    { unfold u32 in *. lia. }
    rewrite Eb. destruct b.
    + exfalso. apply (Hnot (BlockHeader.nonce bh)); [lia|].
      now rewrite set_nonce_nonce.
    + destruct (Z.ltb_spec (BlockHeader.nonce bh) 0); [lia|].
      destruct (Z.gtb_spec (BlockHeader.nonce bh) 4294967295); [lia|].
      cbn [orb].
      rewrite (IH (set_nonce bh (BlockHeader.nonce bh + 1))); try assumption.
      * reflexivity.
      * cbn. lia.
      * intros m Hm. cbn in Hm. apply (Hnot m). lia.
      * cbn. lia.
Qed.

Lemma proofOfWork_finds_first_witness :
  proofOfWork (3 + 0) headerNear = (Ok true, set_nonce headerNear 23414).
Proof.
  apply (proofOfWork_finds_first headerNear 23414); unfold u32; try (cbn; lia).
  - vm_compute. reflexivity.
  - intros m Hm. cbn in Hm.
    assert (C : m = 23412 \/ m = 23413) by lia.
    destruct C as [-> | ->]; vm_compute; discriminate.
Defined.

(** ** Transaction serializers: structure *)

(** Every loop body of the serializers only appends to its accumulator. *)
Lemma for_of_appends {A : Type} (body : bytes -> A -> result bytes) :
  (forall s x, body s x = (r <- body [] x ;; Ok (s ++ r))) ->
  forall l s, for_of l body s = (r <- for_of l body [] ;; Ok (s ++ r)).
Proof.
  intros Hb. induction l as [|x l IH]; intros s; cbn [for_of bind].
  - now rewrite app_nil_r.
  - rewrite (Hb s x). destruct (body [] x) as [r| |]; cbn [bind]; try reflexivity.
    rewrite (IH (s ++ r)), (IH r).
    destruct (for_of l body []) as [r'| |]; cbn [bind]; try reflexivity.
    now rewrite app_assoc.
Qed.

Lemma serTransactions_vin_appends (s : bytes) (vin : Input) :
  serTransactions_vin s vin = (r <- serTransactions_vin [] vin ;; Ok (s ++ r)).
Proof.
  unfold serTransactions_vin.
  destruct (iTo32b (Input.vout vin)); cbn [bind]; try reflexivity.
  destruct (serInt _); cbn [bind]; try reflexivity.
  destruct (iTo32b (Input.sequence vin)); cbn [bind]; try reflexivity.
  cbn [app]. now rewrite <- !app_assoc.
Qed.

Lemma serTransactions_vout_appends (s : bytes) (vout : Prevout) :
  serTransactions_vout s vout = (r <- serTransactions_vout [] vout ;; Ok (s ++ r)).
Proof.
  unfold serTransactions_vout.
  destruct (ito64b (Prevout.value vout)); cbn [bind]; try reflexivity.
  destruct (serInt _); cbn [bind]; try reflexivity.
  cbn [app]. now rewrite <- !app_assoc.
Qed.

Lemma witness_item_appends (s : bytes) (w : string) :
  witness_item s w = (r <- witness_item [] w ;; Ok (s ++ r)).
Proof.
  unfold witness_item.
  destruct (serInt _); cbn [bind]; try reflexivity.
  cbn [app]. now rewrite <- !app_assoc.
Qed.

Lemma witness_stack_appends (s : bytes) (vin : Input) :
  witness_stack s vin = (r <- witness_stack [] vin ;; Ok (s ++ r)).
Proof.
  unfold witness_stack.
  destruct (serInt _) as [c| |]; cbn [bind]; try reflexivity.
  rewrite (for_of_appends _ witness_item_appends _ (s ++ c)).
  rewrite (for_of_appends _ witness_item_appends _ ([] ++ c)).
  destruct (for_of (Input.witness vin) witness_item []); cbn [bind]; try reflexivity.
  cbn [app]. now rewrite <- !app_assoc.
Qed.

Lemma serInt_nonempty (n : Z) (c : bytes) : serInt n = Ok c -> (1 <= List.length c)%nat.
Proof.
  unfold serInt, iTo16b, iTo32b, ito64b.
  repeat match goal with |- context [if ?c then _ else _] => destruct c end;
    cbn [bind]; intros E; try discriminate; injection E as <-; cbn; lia.
Qed.

(** The witness part of a serialization: nothing for a transaction
    without witness, the stacks of all inputs otherwise. *)
Lemma serializations_split (tx : Transaction) (b s : bytes) (ws : Z) :
  serTransactions tx = Ok b -> segwitSerialize tx = Ok s -> witnessSize tx = Ok ws ->
  exists v body W lt,
    let marker := if chkSegwit tx then [0; 1] else [] in
    b = v ++ body ++ lt /\
    s = v ++ marker ++ body ++ W ++ lt /\
    ws = len (marker ++ W) /\
    iTo32b (Transaction.version tx) = Ok v /\
    iTo32b (Transaction.locktime tx) = Ok lt /\
    (chkSegwit tx = false -> W = []) /\
    (6 <= List.length (v ++ body))%nat.
Proof.
  unfold serTransactions, segwitSerialize, witnessSize.
  change segwitSerialize_vin with serTransactions_vin.
  change segwitSerialize_vout with serTransactions_vout.
  destruct (iTo32b (Transaction.version tx)) as [v| |] eqn:Ev; cbn [bind]; try discriminate.
  destruct (serInt (len (Transaction.vin tx))) as [c1| |] eqn:E1; cbn [bind]; try discriminate.
  rewrite (for_of_appends _ serTransactions_vin_appends _ (([] ++ v) ++ c1)).
  rewrite (for_of_appends _ serTransactions_vin_appends _
             ((if chkSegwit tx then ([] ++ v) ++ [0; 1] else [] ++ v) ++ c1)).
  destruct (for_of (Transaction.vin tx) serTransactions_vin []) as [I| |];
    cbn [bind]; try discriminate.
  destruct (serInt (len (Transaction.vout tx))) as [c2| |] eqn:E2; cbn [bind]; try discriminate.
  rewrite !(for_of_appends _ serTransactions_vout_appends _ (_ ++ c2)).
  destruct (for_of (Transaction.vout tx) serTransactions_vout []) as [O| |];
    cbn [bind]; try discriminate.
  pose proof (serInt_nonempty _ _ E1) as Hc1.
  pose proof (serInt_nonempty _ _ E2) as Hc2.
  assert (Hv : List.length v = 4%nat).
  { revert Ev. unfold iTo32b. destruct (_ && _); intros E; try discriminate.
    injection E as <-. apply le_bytes_length. }
  destruct (chkSegwit tx) eqn:Eseg; cbn [negb].
  - rewrite (for_of_appends _ witness_stack_appends _ (_ ++ O)).
    rewrite (for_of_appends _ witness_stack_appends _ ([] ++ [0; 1])).
    destruct (for_of (Transaction.vin tx) witness_stack []) as [W| |];
      cbn [bind]; try discriminate.
    destruct (iTo32b (Transaction.locktime tx)) as [lt| |]; cbn [bind]; try discriminate.
    intros Eb Es Ew. injection Eb as <-. injection Es as <-. injection Ew as <-.
    exists v, (c1 ++ I ++ c2 ++ O), W, lt. cbn zeta. cbn [app].
    rewrite <- !app_assoc.
    repeat apply conj; try reflexivity; try discriminate.
    rewrite !length_app. lia.
  - cbn [bind].
    destruct (iTo32b (Transaction.locktime tx)) as [lt| |]; cbn [bind]; try discriminate.
    intros Eb Es Ew. injection Eb as <-. injection Es as <-. injection Ew as <-.
    exists v, (c1 ++ I ++ c2 ++ O), [], lt. cbn zeta. cbn [app].
    rewrite <- !app_assoc.
    repeat apply conj; try reflexivity.
    rewrite !length_app. lia.
Qed.

Lemma iTo32b_length (n : Z) (b : bytes) : iTo32b n = Ok b -> List.length b = 4%nat.
Proof.
  unfold iTo32b. destruct (_ && _); intros E; try discriminate.
  injection E as <-. apply le_bytes_length.
Qed.

(** X8: the weight recorded for a candidate is three times the length of
    its base serialization plus the length of its witness-inclusive
    serialization, which is never the shorter of the two; it is at least
    40, and four times the base length when no input carries a witness.
    The two ids are the reversed double hashes of the two
    serializations. *)
Theorem candidate_weight (tx : Transaction) (info : TxInfo) :
  mkTxInfo tx = Ok info ->
  exists b s,
    serTransactions tx = Ok b /\ segwitSerialize tx = Ok s /\
    TxInfo.weight info = 3 * len b + len s /\
    len b <= len s /\
    40 <= TxInfo.weight info /\
    (chkSegwit tx = false -> TxInfo.weight info = 4 * len b) /\
    TxInfo.txid info = to_hex (reversebyte (doubleHash b)) /\
    TxInfo.wtxid info = to_hex (reversebyte (doubleHash s)).
Proof.
  unfold mkTxInfo, baseSize.
  destruct (serTransactions tx) as [b| |] eqn:Eb; cbn [bind]; try discriminate.
  destruct (segwitSerialize tx) as [s| |] eqn:Es; cbn [bind]; try discriminate.
  destruct (witnessSize tx) as [ws| |] eqn:Ew; cbn [bind]; try discriminate.
  intros E. injection E as <-. cbn [TxInfo.weight TxInfo.txid TxInfo.wtxid].
  exists b, s.
  destruct (serializations_split tx b s ws Eb Es Ew)
    as (v & body & W & lt & Hb & Hs & Hws & Hv & Hlt & HW & Hsix).
  cbn zeta in *. apply iTo32b_length in Hv. apply iTo32b_length in Hlt.
  assert (Lb : len b = len (v ++ body) + 4).
  { subst b. unfold len. rewrite app_assoc, length_app, Hlt. lia. }
  assert (Ls : len s = len b + ws).
  { subst b s ws. unfold len. rewrite !length_app. lia. }
  assert (Hws0 : 0 <= ws) by (subst ws; unfold len; lia).
  unfold len in Lb at 2.
  repeat apply conj; try reflexivity; try lia.
  intros Hseg. rewrite (HW Hseg), Hseg in Hws. cbn in Hws. lia.
Qed.

Lemma candidate_weight_witness :
  exists b s,
    serTransactions txWitness = Ok b /\ segwitSerialize txWitness = Ok s /\
    len b = 82 /\ len s = 91 /\
    (forall info, mkTxInfo txWitness = Ok info -> TxInfo.weight info = 3 * 82 + 91).
Proof.
  assert (E : exists info, mkTxInfo txWitness = Ok info)
    by (eexists; vm_compute; reflexivity).
  destruct E as [info E].
  destruct (candidate_weight txWitness info E) as (b & s & Hb & Hs & Hw & _).
  exists b, s.
  assert (Lb : len b = 82).
  { assert (Eb : exists b', serTransactions txWitness = Ok b' /\ len b' = 82)
      by (eexists; split; vm_compute; reflexivity).
    destruct Eb as (b' & Eb & L). rewrite Hb in Eb. now injection Eb as ->. }
  assert (Ls : len s = 91).
  { assert (Ec : exists s', segwitSerialize txWitness = Ok s' /\ len s' = 91)
      by (eexists; split; vm_compute; reflexivity).
    destruct Ec as (s' & Ec & L). rewrite Hs in Ec. now injection Ec as ->. }
  repeat apply conj; try assumption.
  intros info' E'. rewrite E in E'. injection E' as <-. rewrite Hw, Lb, Ls. reflexivity.
Defined.

(** ** Transaction ids do not depend on witness data *)

Lemma for_of_strip {S : Type} (body : S -> Input -> result S) :
  (forall s x, body s (stripInput x) = body s x) ->
  forall l s, for_of (map stripInput l) body s = for_of l body s.
Proof.
  intros Hb. induction l as [|x l IH]; intros s; [reflexivity|].
  cbn [map for_of]. rewrite Hb. destruct (body s x); cbn [bind]; try reflexivity.
  apply IH.
Qed.

Lemma chkSegwit_strip (vin : list Input) : chkSegwit_vin (map stripInput vin) = false.
Proof. induction vin as [|x l IH]; [reflexivity | exact IH]. Qed.

Lemma segwitSerialize_plain (tx : Transaction) :
  chkSegwit tx = false -> segwitSerialize tx = serTransactions tx.
Proof.
  intros H. unfold segwitSerialize, serTransactions. rewrite H. reflexivity.
Qed.

(** X9: [serTransactions] never reads a witness: emptying every witness
    stack of a transaction changes neither the outcome of
    [serTransactions] nor the transaction id, and the witness-inclusive
    serialization of the emptied transaction is the base serialization
    of the original. *)
Theorem serTransactions_ignores_witness (tx : Transaction) :
  serTransactions (stripWitness tx) = serTransactions tx /\
  segwitSerialize (stripWitness tx) = serTransactions tx /\
  txID (stripWitness tx) = txID tx.
Proof.
  assert (H : serTransactions (stripWitness tx) = serTransactions tx).
  { unfold serTransactions, stripWitness, len. cbn [Transaction.version Transaction.vin
      Transaction.vout Transaction.locktime]. rewrite length_map.
    destruct (iTo32b (Transaction.version tx)); cbn [bind]; try reflexivity.
    destruct (serInt _); cbn [bind]; try reflexivity.
    rewrite for_of_strip by reflexivity. reflexivity. }
  repeat apply conj.
  - exact H.
  - rewrite <- H. apply segwitSerialize_plain.
    unfold chkSegwit, stripWitness. cbn [Transaction.vin]. apply chkSegwit_strip.
  - unfold txID. now rewrite H.
Qed.

(** ** Transaction serializers: when they raise *)

Lemma iTo32b_dichotomy (n : Z) :
  (exists b, iTo32b n = Ok b) /\ u32 n \/ iTo32b n = Throw RangeError /\ ~ u32 n.
Proof.
  unfold iTo32b, u32.
  destruct (Z.leb_spec 0 n), (Z.leb_spec n 4294967295); cbn [andb];
    (left; split; [eexists; reflexivity | lia]) || (right; split; [reflexivity | lia]).
Qed.

Lemma ito64b_dichotomy (n : Z) :
  (exists b, ito64b n = Ok b) /\ u64 n \/ ito64b n = Throw RangeError /\ ~ u64 n.
Proof.
  unfold ito64b, u64.
  destruct (Z.leb_spec 0 n), (Z.leb_spec n 18446744073709551615); cbn [andb];
    (left; split; [eexists; reflexivity | lia]) || (right; split; [reflexivity | lia]).
Qed.

Lemma serInt_len_dichotomy {A : Type} (l : list A) :
  (exists b, serInt (len l) = Ok b) /\ u64 (len l)
  \/ serInt (len l) = Throw RangeError /\ ~ u64 (len l).
Proof.
  assert (H0 : 0 <= len l) by (unfold len; lia).
  unfold serInt, u64.
  destruct (Z.ltb_spec (len l) 253); [left; split; [eexists; reflexivity | lia]|].
  destruct (Z.leb_spec (len l) 65535).
  { rewrite iTo16b_ok by lia. left; split; [eexists; reflexivity | lia]. }
  destruct (Z.leb_spec (len l) 4294967295).
  { rewrite iTo32b_ok by lia. left; split; [eexists; reflexivity | lia]. }
  destruct (ito64b_dichotomy (len l)) as [[[b ->] Hf]|[-> Hf]].
  - left; split; [eexists; reflexivity | exact Hf].
  - right; split; [reflexivity | exact Hf].
Qed.

Lemma for_of_dichotomy {A S : Type} (body : S -> A -> result S) (ok : A -> Prop) :
  (forall s x, (exists r, body s x = Ok r) /\ ok x \/ body s x = Throw RangeError /\ ~ ok x) ->
  forall l s,
    (exists r, for_of l body s = Ok r) /\ Forall ok l
    \/ for_of l body s = Throw RangeError /\ ~ Forall ok l.
Proof.
  intros Hb. induction l as [|x l IH]; intros s.
  - left. split; [eexists; reflexivity | constructor].
  - cbn [for_of]. destruct (Hb s x) as [[[r ->] Hx]|[-> Hx]]; cbn [bind].
    + destruct (IH r) as [[Hr Hl]|[Hr Hl]].
      * left. split; [exact Hr | now constructor].
      * right. split; [exact Hr|]. intros H. inversion H. contradiction.
    + right. split; [reflexivity|]. intros H. inversion H. contradiction.
Qed.

Lemma serTransactions_vin_dichotomy (s : bytes) (vin : Input) :
  (exists r, serTransactions_vin s vin = Ok r) /\ inputFits vin
  \/ serTransactions_vin s vin = Throw RangeError /\ ~ inputFits vin.
Proof.
  unfold serTransactions_vin, inputFits.
  destruct (iTo32b_dichotomy (Input.vout vin)) as [[[b1 ->] H1]|[-> H1]]; cbn [bind];
    [|right; split; [reflexivity | tauto]].
  destruct (serInt_len_dichotomy (from_hex (Input.scriptsig vin)))
    as [[[b2 ->] H2]|[-> H2]]; cbn [bind];
    [|right; split; [reflexivity | tauto]].
  destruct (iTo32b_dichotomy (Input.sequence vin)) as [[[b3 ->] H3]|[-> H3]]; cbn [bind];
    [|right; split; [reflexivity | tauto]].
  left. split; [eexists; reflexivity | tauto].
Qed.

Lemma serTransactions_vout_dichotomy (s : bytes) (vout : Prevout) :
  (exists r, serTransactions_vout s vout = Ok r) /\ outputFits vout
  \/ serTransactions_vout s vout = Throw RangeError /\ ~ outputFits vout.
Proof.
  unfold serTransactions_vout, outputFits.
  destruct (ito64b_dichotomy (Prevout.value vout)) as [[[b1 ->] H1]|[-> H1]]; cbn [bind];
    [|right; split; [reflexivity | tauto]].
  destruct (serInt_len_dichotomy (from_hex (Prevout.scriptpubkey vout)))
    as [[[b2 ->] H2]|[-> H2]]; cbn [bind];
    [|right; split; [reflexivity | tauto]].
  left. split; [eexists; reflexivity | tauto].
Qed.

(** X10: [serTransactions] returns octets exactly when every fixed-width
    field of the transaction fits its width (version, lock time, output
    indices and sequences in 32 bits, values in 64 bits) and every count
    fits 64 bits; in every other case it raises a range error. *)
Theorem serTransactions_outcome (tx : Transaction) :
  (exists b, serTransactions tx = Ok b) /\ txFits tx
  \/ serTransactions tx = Throw RangeError /\ ~ txFits tx.
Proof.
  unfold serTransactions, txFits.
  destruct (iTo32b_dichotomy (Transaction.version tx)) as [[[b1 ->] H1]|[-> H1]];
    cbn [bind]; [|right; split; [reflexivity | tauto]].
  destruct (serInt_len_dichotomy (Transaction.vin tx)) as [[[b2 ->] H2]|[-> H2]];
    cbn [bind]; [|right; split; [reflexivity | tauto]].
  destruct (for_of_dichotomy _ _ serTransactions_vin_dichotomy (Transaction.vin tx)
              (([] ++ b1) ++ b2)) as [[[r1 ->] H3]|[-> H3]];
    cbn [bind]; [|right; split; [reflexivity | tauto]].
  destruct (serInt_len_dichotomy (Transaction.vout tx)) as [[[b3 ->] H4]|[-> H4]];
    cbn [bind]; [|right; split; [reflexivity | tauto]].
  destruct (for_of_dichotomy _ _ serTransactions_vout_dichotomy (Transaction.vout tx)
              (r1 ++ b3)) as [[[r2 ->] H5]|[-> H5]];
    cbn [bind]; [|right; split; [reflexivity | tauto]].
  destruct (iTo32b_dichotomy (Transaction.locktime tx)) as [[[b4 ->] H6]|[-> H6]];
    cbn [bind]; [|right; split; [reflexivity | tauto]].
  left. split; [eexists; reflexivity | tauto].
Qed.

(** A version that is negative as a 32-bit signed integer does not fit. *)
Example serTransactions_negative_version :
  serTransactions txNegativeVersion = Throw RangeError /\
  mkTxInfo txNegativeVersion = Throw RangeError.
Proof. split; reflexivity. Qed.

(** ** Selector: a candidate that cannot be serialized *)

Lemma readFiles_aborts (pre : list Transaction) : forall cnt acc tx post e,
  0 <= cnt -> cnt + len pre < 4200 ->
  Forall (fun t => exists i, mkTxInfo t = Ok i) pre ->
  mkTxInfo tx = Throw e ->
  readFiles (pre ++ tx :: post) cnt acc = Throw e.
Proof.
  induction pre as [|t pre IH]; intros cnt acc tx post e Hc Hlen Hpre Htx.
  - cbn [app readFiles]. destruct (Z.gtb_spec (cnt + 1) 4200) as [H|H].
    + unfold len in Hlen. cbn in Hlen. lia.
    + now rewrite Htx.
  - cbn [app readFiles]. unfold len in Hlen. cbn [List.length] in Hlen.
    destruct (Z.gtb_spec (cnt + 1) 4200) as [H|H]; [lia|].
    inversion Hpre as [|? ? [i Hi] Hpre']; subst. rewrite Hi. cbn [bind].
    apply IH; try assumption; unfold len; lia.
Qed.

(** X11: one candidate among the first 4200 that cannot be serialized
    aborts the whole selection: [prioritize] raises the error of the
    first such candidate and returns nothing for the candidates before or
    after it. *)
Theorem prioritize_aborts (pre post : list Transaction) (tx : Transaction) (e : error) :
  (List.length pre < 4200)%nat ->
  Forall (fun t => exists i, mkTxInfo t = Ok i) pre ->
  mkTxInfo tx = Throw e ->
  prioritize (pre ++ tx :: post) = Throw e.
Proof.
  intros Hlen Hpre Htx. unfold prioritize.
  rewrite (readFiles_aborts pre 0 [] tx post e); try assumption; try reflexivity.
  unfold len. lia.
Qed.

Lemma prioritize_aborts_witness :
  prioritize [txPaying; txNegativeVersion; txWitness] = Throw RangeError.
Proof.
  apply (prioritize_aborts [txPaying] [txWitness] txNegativeVersion RangeError).
  - cbn. lia.
  - constructor; [|constructor]. eexists. vm_compute. reflexivity.
  - reflexivity.
Defined.

(** ** Ranking when no fee is positive *)

Local Open Scope Q_scope.

Lemma qmax_fold_among (P : Q -> Prop) (qs : list Q) : forall a : Q,
  P a -> (forall q, In q qs -> P q) -> P (fold_left qmax qs a).
Proof.
  induction qs as [|x qs IH]; intros a Ha Hq; cbn [fold_left]; [exact Ha|].
  apply IH.
  - unfold qmax. destruct (Qle_bool a x); [apply Hq; now left | exact Ha].
  - intros q Hin. apply Hq. now right.
Qed.

Lemma maxfeeperWight_among (P : Q -> Prop) (c0 : TxInfo) (txInfo : list TxInfo) :
  (forall c, In c (c0 :: txInfo) -> (0 < TxInfo.weight c)%Z) ->
  (forall c, In c (c0 :: txInfo) -> P (ratio c)) ->
  exists m, Math_max (map feePerWeight (c0 :: txInfo)) = Fin m /\ P m /\ ratio c0 <= m.
Proof.
  intros Hw HP. rewrite (map_feePerWeight _ Hw). unfold Math_max.
  cbn [map fold_left nmax2]. rewrite Math_max_fin.
  eexists. split; [reflexivity|]. split.
  - apply qmax_fold_among; [apply HP; now left|].
    intros q Hq. apply in_map_iff in Hq. destruct Hq as (c & <- & Hc).
    apply HP. now right.
  - exact (proj1 (qmax_fold_ge (map ratio txInfo) (ratio c0))).
Qed.

Lemma ratio_negative (c : TxInfo) :
  (0 < TxInfo.weight c)%Z ->
  (ratio c < 0 <-> (TxInfo.fee c < 0)%Z) /\ (ratio c <= 0 <-> (TxInfo.fee c <= 0)%Z).
Proof.
  intros H. unfold ratio.
  destruct c as [i w f wt]. cbn [TxInfo.fee TxInfo.weight] in *.
  destruct wt as [|p|p]; try lia.
  unfold Qdiv, Qinv, Qmult, Qlt, Qle, inject_Z. cbn.
  split; split; intros; lia.
Qed.




Section SortNothing.
Context {A : Type} (compare : A -> A -> num).

Lemma sort_nothing (l : list A) :
  (forall x y, In x l -> In y l -> npos (compare x y) = false) ->
  sort compare l = l.
Proof.
  induction l as [|x l IH]; intros H; [reflexivity|].
  cbn [sort fold_right]. fold (sort compare l).
  rewrite IH by (intros; apply H; now right).
  destruct l as [|y l']; [reflexivity|].
  cbn [insert]. rewrite H; [reflexivity | now left | right; now left].
Qed.
End SortNothing.

(** X13: when every candidate has a positive weight, no fee is positive
    and at least one fee is zero, the maximum ratio is zero, every
    comparison is [NaN] and the ranking leaves the candidates in their
    input order, whatever their ratios.  (Exact rationals, with the IEEE
    rules for division by zero.) *)
Theorem rank_zero_max_unsorted (txInfo : list TxInfo) :
  (forall c, In c txInfo -> (0 < TxInfo.weight c)%Z /\ (TxInfo.fee c <= 0)%Z) ->
  (exists c, In c txInfo /\ TxInfo.fee c = 0%Z) ->
  rank txInfo = txInfo.
Proof.
  intros H (z & Hz & Fz). destruct txInfo as [|c0 l]; [reflexivity|].
  unfold rank. destruct (Z.gtb_spec (len (c0 :: l)) 0) as [_|Hlen];
    [|unfold len in Hlen; cbn [List.length] in Hlen; lia].
  assert (Hw : forall c, In c (c0 :: l) -> (0 < TxInfo.weight c)%Z) by (intros; now apply H).
  destruct (maxfeeperWight_among (fun q => q <= 0) c0 l Hw) as (m & Em & Hm & _).
  { intros c Hc. destruct (H c Hc) as [Hwc Hf]. now apply (ratio_negative c Hwc). }
  destruct (maxfeeperWight_fin c0 l Hw) as (m' & Em' & Hbound & _).
  rewrite Em in Em'. injection Em' as <-.
  assert (Hm0 : m == 0).
  { apply Qle_antisym; [exact Hm|].
    apply Qle_trans with (ratio z); [|now apply Hbound].
    assert (E : ratio z == 0) by (apply (ratio_sign z (Hw z Hz)); exact Fz).
    rewrite E. apply Qle_refl. }
  rewrite Em. apply sort_nothing. intros a b Ha Hb.
  unfold compareNormalized. fold (feePerWeight a). fold (feePerWeight b).
  rewrite !feePerWeight_ratio by now apply Hw.
  cbn [ndiv]. rewrite (Qeq_bool_true _ _ Hm0).
  assert (Hr : forall c, In c (c0 :: l) -> Qltb 0 (ratio c) = false).
  { intros c Hc. destruct (Qltb 0 (ratio c)) eqn:E; [|reflexivity].
    apply Qltb_lt in E. destruct (H c Hc) as [Hwc Hf].
    apply (ratio_negative c Hwc) in Hf. exfalso. exact (Qlt_not_le _ _ E Hf). }
  rewrite (Hr a Ha), (Hr b Hb).
  destruct (Qeq_bool (ratio b) 0), (Qeq_bool (ratio a) 0); reflexivity.
Qed.

Lemma rank_zero_max_unsorted_witness :
  rank candsZeroMax = candsZeroMax /\
  sort comparePlain candsZeroMax
  = [cand idB 0 400; cand zeros64 (-100) 400; cand idA (-200) 400].
Proof.
  split; [|reflexivity].
  apply (rank_zero_max_unsorted candsZeroMax).
  - intros c [<-|[<-|[<-|[]]]]; cbn; lia.
  - exists (cand idB 0 400). split; [right; now left | reflexivity].
Defined.

Close Scope Q_scope.

(** ** Merkle tree: what the returned tree looks like *)

Lemma pairNodes_keeps (P : MerkleNode -> Prop) (ns : list MerkleNode) :
  (forall l r, P l -> P r -> P (parentNode l r)) ->
  Forall P ns -> Forall P (pairNodes ns).
Proof.
  intros Hp. induction ns as [| |x y l IH] using pair_induction; intros H.
  - constructor.
  - inversion H; subst. repeat constructor. now apply Hp.
  - inversion H as [|? ? Hx H']; subst. inversion H' as [|? ? Hy H'']; subst.
    cbn [pairNodes]. constructor; [now apply Hp | now apply IH].
Qed.

Lemma pairNodes_parents (ns : list MerkleNode) :
  Forall (fun n => exists l r, n = parentNode l r) (pairNodes ns).
Proof.
  induction ns as [| |x y l IH] using pair_induction.
  - constructor.
  - repeat constructor. now exists x, x.
  - cbn [pairNodes]. constructor; [now exists x, y | exact IH].
Qed.

(** Whatever holds of every node of the array and is kept by pairing
    holds of the node the [while] loop ends with. *)
Lemma while_keeps (P : MerkleNode -> Prop) (fuel : nat) :
  (forall l r, P l -> P r -> P (parentNode l r)) ->
  forall (ns : list MerkleNode) (root : MerkleNode),
    newMerkTree_while fuel (map Some ns) = Ok [Some root] ->
    Forall P ns -> P root.
Proof.
  intros Hp. induction fuel as [|fuel IH]; intros ns root H HP; [discriminate|].
  destruct ns as [|a [|b l]].
  - discriminate.
  - cbn in H. injection H as <-. now inversion HP.
  - set (ns := a :: b :: l) in *. cbn [newMerkTree_while] in H.
    replace (1 <? List.length (map Some ns))%nat with true in H
      by (symmetry; apply Nat.ltb_lt; rewrite length_map; cbn; lia).
    rewrite level_pairs in H by discriminate. cbn [bind] in H.
    apply (IH _ _ H). now apply pairNodes_keeps.
Qed.

Lemma while_fuel_irrelevant (f1 : nat) : forall (f2 : nat) (ns : list MerkleNode),
  ns <> [] -> (List.length ns <= f1)%nat -> (List.length ns <= f2)%nat ->
  newMerkTree_while f1 (map Some ns) = newMerkTree_while f2 (map Some ns).
Proof.
  induction f1 as [|f1 IH]; intros f2 ns Hne H1 H2.
  - destruct ns; [contradiction | cbn in H1; lia].
  - destruct f2 as [|f2]; [destruct ns; [contradiction | cbn in H2; lia]|].
    destruct ns as [|a [|b l]]; [contradiction | reflexivity |].
    set (ns := a :: b :: l) in *. cbn [newMerkTree_while].
    replace (1 <? List.length (map Some ns))%nat with true
      by (symmetry; apply Nat.ltb_lt; rewrite length_map; cbn; lia).
    rewrite level_pairs by discriminate. cbn [bind].
    assert (Hp : (List.length (pairNodes ns) <= List.length ns - 1)%nat).
    { rewrite pairNodes_length.
      assert (2 <= List.length ns)%nat by (cbn; lia).
      pose proof (Nat.div_mod_eq (S (List.length ns)) 2).
      pose proof (Nat.mod_upper_bound (S (List.length ns)) 2). lia. }
    apply IH; [discriminate | lia | lia].
Qed.

Lemma leaf_wellFormed (id : string) :
  wellFormed (leafNode id) /\ octets (node_data (leafNode id)).
Proof.
  split; [exact I|]. cbn. apply octets_rev, from_hex_octets.
Qed.

Lemma parent_wellFormed (l r : MerkleNode) :
  wellFormed l /\ octets (node_data l) -> wellFormed r /\ octets (node_data r) ->
  wellFormed (parentNode l r) /\ octets (node_data (parentNode l r)).
Proof.
  intros [Hl _] [Hr _]. split.
  - cbn [parentNode wellFormed]. repeat split; assumption.
  - cbn [parentNode node_data]. apply sha_octets.
Qed.

(** X14: for a non-empty list of ids [newMerkTree] returns a well-formed
    tree: every node is a leaf without children or has two children and
    carries the double hash of their two digests; the root digest
    consists of octets, and of exactly 32 of them as soon as there are
    two ids or more. *)
Theorem newMerkTree_wellFormed (leaves : list string) :
  leaves <> [] ->
  exists root,
    newMerkTree leaves = Ok (Some root) /\
    wellFormed root /\ octets (node_data root) /\
    ((2 <= List.length leaves)%nat -> List.length (node_data root) = 32%nat).
Proof.
  intros Hne. unfold newMerkTree. rewrite leaves_loop. cbn [app bind].
  set (ns := map leafNode leaves).
  assert (Hns : ns <> []) by (destruct leaves; [contradiction | discriminate]).
  destruct (while_reduces (S (List.length (map Some ns))) ns Hns) as (root & Hw & _ & _).
  { rewrite length_map. lia. }
  exists root. rewrite Hw. cbn [bind at_index nth_error]. split; [reflexivity|].
  assert (HP : wellFormed root /\ octets (node_data root)).
  { apply (while_keeps _ _ parent_wellFormed ns root Hw).
    apply Forall_forall. intros n Hn. apply in_map_iff in Hn.
    destruct Hn as (id & <- & _). apply leaf_wellFormed. }
  destruct HP as [H1 H2]. repeat apply conj; try assumption.
  intros H2l.
  destruct ns as [|a [|b l]] eqn:Ens.
  - contradiction.
  - apply (f_equal (@List.length _)) in Ens. unfold ns in Ens.
    rewrite length_map in Ens. cbn in Ens. lia.
  - cbn [newMerkTree_while] in Hw.
    replace (1 <? List.length (map Some (a :: b :: l)))%nat with true in Hw
      by (symmetry; apply Nat.ltb_lt; rewrite length_map; cbn; lia).
    rewrite level_pairs in Hw by discriminate. cbn [bind] in Hw.
    assert (Hpar : exists x y, root = parentNode x y).
    { apply (while_keeps (fun n => exists x y, n = parentNode x y) _
               (fun x y _ _ => ex_intro _ x (ex_intro _ y eq_refl)) _ root Hw).
      apply pairNodes_parents. }
    destruct Hpar as (x & y & ->). cbn [parentNode node_data]. apply sha_length.
Qed.

Lemma newMerkTree_wellFormed_witness :
  exists root,
    newMerkTree [idA; idB; zeros64] = Ok (Some root) /\
    wellFormed root /\ List.length (node_data root) = 32%nat.
Proof.
  destruct (newMerkTree_wellFormed [idA; idB; zeros64]) as (root & H1 & H2 & _ & H4).
  - discriminate.
  - exists root. repeat split; try assumption. apply H4. cbn. lia.
Defined.

Lemma Some_eq {A : Type} (a b : A) : Some a = Some b -> a = b.
Proof. intros H. now injection H. Qed.

Lemma last_map {A B : Type} (f : A -> B) (l : list A) (d : A) :
  last (map f l) (f d) = f (last l d).
Proof.
  induction l as [|x l IH]; [reflexivity|].
  destruct l as [|y l]; [reflexivity|]. exact IH.
Qed.

(** X15: on a list of odd length, three or more, repeating the last id
    once more does not change the tree: [newMerkTree] returns the same
    node for both lists, so the root does not tell them apart. *)
Theorem newMerkTree_repeated_last (leaves : list string) (d : string) :
  (List.length leaves mod 2 = 1)%nat -> (3 <= List.length leaves)%nat ->
  exists root,
    newMerkTree leaves = Ok (Some root) /\
    newMerkTree (leaves ++ [last leaves d]) = Ok (Some root).
Proof.
  intros Hodd H3. unfold newMerkTree. rewrite !leaves_loop. cbn [app bind].
  rewrite !map_app. cbn [map]. rewrite <- (last_map leafNode).
  set (ns := map leafNode leaves).
  assert (Hlen : List.length ns = List.length leaves) by apply length_map.
  assert (Hns : ns <> []) by (intros E; rewrite E in Hlen; cbn in Hlen; lia).
  destruct (while_reduces (S (List.length (map Some ns))) ns Hns) as (root & Hw & _ & _).
  { rewrite length_map. lia. }
  exists root. rewrite Hw. cbn [bind at_index nth_error]. split; [reflexivity|].
  change [Some (last ns (leafNode d))] with (map Some [last ns (leafNode d)]).
  rewrite <- map_app.
  assert (Hstep : forall f (l : list MerkleNode), (2 <= List.length l)%nat ->
            newMerkTree_while (S f) (map Some l)
            = newMerkTree_while f (map Some (pairNodes l))).
  { intros f l Hl. cbn [newMerkTree_while].
    replace (1 <? List.length (map Some l))%nat with true
      by (symmetry; apply Nat.ltb_lt; rewrite length_map; lia).
    rewrite level_pairs by (intros E; rewrite E in Hl; cbn in Hl; lia).
    reflexivity. }
  rewrite Hstep in Hw by lia.
  rewrite Hstep by (rewrite length_app; cbn; lia).
  rewrite pairNodes_odd by (rewrite Hlen; exact Hodd).
  assert (Hp : (List.length (pairNodes ns) <= List.length ns - 1)%nat).
  { rewrite pairNodes_length.
    pose proof (Nat.div_mod_eq (S (List.length ns)) 2).
    pose proof (Nat.mod_upper_bound (S (List.length ns)) 2). lia. }
  rewrite (while_fuel_irrelevant _ (List.length (map Some ns)) (pairNodes ns)).
  - rewrite Hw. reflexivity.
  - destruct ns as [|a [|b l]]; cbn in Hlen; try lia. discriminate.
  - rewrite !length_map, length_app. cbn. lia.
  - rewrite length_map. lia.
Qed.

Lemma newMerkTree_repeated_last_witness :
  exists root,
    newMerkTree [idA; idB; zeros64] = Ok (Some root) /\
    newMerkTree [idA; idB; zeros64; zeros64] = Ok (Some root).
Proof.
  apply (newMerkTree_repeated_last [idA; idB; zeros64] idA); cbn; lia.
Defined.

(** For a single id the repetition does change the root: the leaf is
    returned as it is, the pair is hashed. *)
Example newMerkTree_single_and_pair :
  (exists r, newMerkTree [idA] = Ok (Some r) /\ node_left r = None) /\
  (exists r l, newMerkTree [idA; idA] = Ok (Some r) /\ node_left r = Some l).
Proof.
  split.
  - eexists. split; [vm_compute; reflexivity | reflexivity].
  - eexists. eexists. split; [vm_compute; reflexivity | reflexivity].
Qed.

(** X16: ids as [prioritize] produces them, the hexadecimal text of a
    reversed digest, give back the digests as leaves: the root that
    [newMerkTree] computes from such ids is the classic Merkle root of
    the digests themselves. *)
Theorem newMerkTree_of_digests (digests : list bytes) :
  digests <> [] -> Forall octets digests ->
  exists root,
    newMerkTree (map (fun h => to_hex (reversebyte h)) digests) = Ok (Some root) /\
    merkleReduce_spec (List.length digests) digests = Some (node_data root).
Proof.
  intros Hne Ho. unfold newMerkTree. rewrite leaves_loop. cbn [app bind].
  set (ns := map leafNode (map (fun h => to_hex (reversebyte h)) digests)).
  assert (Hlen : List.length ns = List.length digests)
    by (unfold ns; now rewrite !length_map).
  assert (Hns : ns <> []).
  { intros E. rewrite E in Hlen. destruct digests; [contradiction | discriminate]. }
  destruct (while_reduces (S (List.length (map Some ns))) ns Hns) as (root & Hw & Hs & _).
  { rewrite length_map. lia. }
  exists root. rewrite Hw. cbn [bind at_index nth_error]. split; [reflexivity|].
  rewrite <- (Hs (List.length digests)) by lia. f_equal.
  unfold ns. rewrite !map_map. symmetry.
  rewrite <- (map_id digests) at 2. apply map_ext_in. intros h Hh.
  cbn [leafNode node_data]. unfold reversebyte.
  rewrite from_hex_to_hex, rev_involutive; [reflexivity|].
  apply octets_rev. rewrite Forall_forall in Ho. now apply Ho.
Qed.

Lemma newMerkTree_of_digests_witness :
  exists root,
    newMerkTree [to_hex (reversebyte [1; 2; 3]); to_hex (reversebyte [4; 5; 6])]
    = Ok (Some root) /\
    node_data root = doubleHash ([1; 2; 3] ++ [4; 5; 6]).
Proof.
  destruct (newMerkTree_of_digests [[1; 2; 3]; [4; 5; 6]]) as (root & H1 & H2).
  - discriminate.
  - repeat constructor; lia.
  - exists root. split; [exact H1|]. symmetry. exact (Some_eq _ _ H2).
Defined.

(** ** Witness commitment and coinbase transaction *)

Lemma newMerkTree_root (leaves : list string) :
  leaves <> [] ->
  exists root,
    newMerkTree leaves = Ok (Some root) /\
    merkleRoot_spec leaves = Some (node_data root) /\
    octets (node_data root) /\
    (forall id, leaves = [id] -> node_data root = rev (from_hex id)) /\
    ((2 <= List.length leaves)%nat -> List.length (node_data root) = 32%nat).
Proof.
  intros Hne. unfold newMerkTree. rewrite leaves_loop. cbn [app bind].
  set (ns := map leafNode leaves).
  assert (Hns : ns <> []) by (destruct leaves; [contradiction | discriminate]).
  destruct (while_reduces (S (List.length (map Some ns))) ns Hns) as (root & Hw & Hs & H1).
  { rewrite length_map. lia. }
  exists root. rewrite Hw. cbn [bind at_index nth_error]. split; [reflexivity|].
  assert (HP : wellFormed root /\ octets (node_data root)).
  { apply (while_keeps _ _ parent_wellFormed ns root Hw).
    apply Forall_forall. intros n Hn. apply in_map_iff in Hn.
    destruct Hn as (id & <- & _). apply leaf_wellFormed. }
  repeat apply conj.
  - unfold merkleRoot_spec.
    rewrite <- (Hs (List.length leaves)) by (unfold ns; rewrite length_map; lia).
    unfold ns. now rewrite map_map.
  - apply HP.
  - intros id ->. now rewrite (H1 (leafNode id) eq_refl).
  - intros H2l. destruct ns as [|a [|b l]] eqn:Ens.
    + contradiction.
    + apply (f_equal (@List.length _)) in Ens. unfold ns in Ens.
      rewrite length_map in Ens. cbn in Ens. lia.
    + cbn [newMerkTree_while] in Hw.
      replace (1 <? List.length (map Some (a :: b :: l)))%nat with true in Hw
        by (symmetry; apply Nat.ltb_lt; rewrite length_map; cbn; lia).
      rewrite level_pairs in Hw by discriminate. cbn [bind] in Hw.
      assert (Hpar : exists x y, root = parentNode x y).
      { apply (while_keeps (fun n => exists x y, n = parentNode x y) _
                 (fun x y _ _ => ex_intro _ x (ex_intro _ y eq_refl)) _ root Hw).
        apply pairNodes_parents. }
      destruct Hpar as (x & y & ->). cbn [parentNode node_data]. apply sha_length.
Qed.

Lemma from_hex_zeros64 : from_hex zeros64 = repeat 0 32.
Proof. reflexivity. Qed.

(** What [witnessMerk] returns once [prioritize] has returned. *)
Lemma witnessMerk_value (files : list Transaction) (r : num) (ids wids : list string) :
  prioritize files = Ok (r, ids, wids) ->
  exists rootDigest,
    merkleRoot_spec (zeros64 :: wids) = Some rootDigest /\
    witnessMerk files = Ok (to_hex (doubleHash (rootDigest ++ repeat 0 32))).
Proof.
  intros Hp. unfold witnessMerk. rewrite Hp. cbn [bind snd].
  destruct (newMerkTree_root (zeros64 :: wids)) as (root & Hn & Hs & Ho & _);
    [discriminate|].
  rewrite Hn. cbn [bind]. exists (node_data root). split; [exact Hs|].
  rewrite from_hex_app by exact Ho. now rewrite from_hex_zeros64.
Qed.

(** X17: after a successful selection [witnessMerk] returns the 64
    hexadecimal digits of [doubleHash(root ‖ 32 zero octets)], where
    [root] is the classic Merkle root over the zero id followed by the
    accepted witness ids; with no accepted candidate the root is the
    zero id itself. *)
Theorem witnessMerk_commitment (files : list Transaction) (r : num)
    (ids wids : list string) :
  prioritize files = Ok (r, ids, wids) ->
  exists rootDigest commit,
    merkleRoot_spec (zeros64 :: wids) = Some rootDigest /\
    commit = doubleHash (rootDigest ++ repeat 0 32) /\
    witnessMerk files = Ok (to_hex commit) /\
    String.length (to_hex commit) = 64%nat /\
    from_hex (to_hex commit) = commit /\
    (wids = [] -> rootDigest = repeat 0 32).
Proof.
  intros Hp. destruct (witnessMerk_value files r ids wids Hp) as (d & Hs & Hw).
  exists d, (doubleHash (d ++ repeat 0 32)).
  repeat apply conj; try assumption; try reflexivity.
  - rewrite to_hex_length. unfold doubleHash. now rewrite sha_length.
  - apply from_hex_to_hex. unfold doubleHash. apply sha_octets.
  - intros ->. cbn in Hs. now injection Hs as <-.
Qed.

Lemma witnessMerk_commitment_witness :
  exists rootDigest commit,
    merkleRoot_spec [zeros64] = Some rootDigest /\
    commit = doubleHash (rootDigest ++ repeat 0 32) /\
    witnessMerk [] = Ok (to_hex commit).
Proof.
  destruct (witnessMerk_commitment [] (Fin (2500000000 # 2)) [] [])
    as (d & c & H1 & H2 & H3 & _).
  - reflexivity.
  - exists d, c. repeat split; assumption.
Defined.

Lemma coinbase_base (r : Z) (c : bytes) :
  u64 r -> octets c -> List.length c = 32%nat ->
  serTransactions (coinbaseTx r (to_hex c))
  = Ok (le_bytes 4 1 ++ coinbaseBody r c ++ le_bytes 4 0).
Proof.
  intros Hr Hc Hl.
  unfold serTransactions, coinbaseTx.
  cbn [Transaction.version Transaction.vin Transaction.vout Transaction.locktime for_of].
  unfold serTransactions_vin, serTransactions_vout.
  cbn [Input.txid Input.vout Input.scriptsig Input.sequence
       Prevout.value Prevout.scriptpubkey].
  rewrite (ito64b_ok r) by exact Hr.
  change ("6a24" ++ "aa21a9ed" ++ to_hex c)%string
    with (to_hex [106; 36; 170; 33; 169; 237] ++ to_hex c)%string.
  rewrite from_hex_app by (repeat constructor; lia).
  rewrite from_hex_to_hex by exact Hc.
  unfold len. rewrite length_app, Hl. unfold coinbaseBody.
  vm_compute. reflexivity.
Qed.

Lemma coinbase_segwit (r : Z) (c : bytes) :
  u64 r -> octets c -> List.length c = 32%nat ->
  segwitSerialize (coinbaseTx r (to_hex c))
  = Ok (le_bytes 4 1 ++ [0; 1] ++ coinbaseBody r c
        ++ ([1; 32] ++ repeat 0 32) ++ le_bytes 4 0).
Proof.
  intros Hr Hc Hl.
  assert (Hraw : segwitSerialize (coinbaseTx r (to_hex c))
                 = Ok ((((((le_bytes 4 1 ++ [0; 1]) ++ coinbaseBody r c) ++ [1]) ++ [32])
                        ++ repeat 0 32) ++ le_bytes 4 0)).
  { unfold segwitSerialize, coinbaseTx, chkSegwit.
    cbn [Transaction.version Transaction.vin Transaction.vout Transaction.locktime
         for_of chkSegwit_vin Input.witness].
    unfold segwitSerialize_vin, segwitSerialize_vout, witness_stack.
    cbn [Input.txid Input.vout Input.scriptsig Input.sequence Input.witness
         Prevout.value Prevout.scriptpubkey for_of].
    unfold witness_item.
    rewrite (ito64b_ok r) by exact Hr.
    change ("6a24" ++ "aa21a9ed" ++ to_hex c)%string
      with (to_hex [106; 36; 170; 33; 169; 237] ++ to_hex c)%string.
    rewrite from_hex_app by (repeat constructor; lia).
    rewrite from_hex_to_hex by exact Hc.
    unfold len. rewrite length_app, Hl. unfold coinbaseBody.
    vm_compute. reflexivity. }
  rewrite Hraw. f_equal. rewrite <- !app_assoc. reflexivity.
Qed.

Lemma coinbase_overflow (r : Z) (w : string) :
  ~ u64 r ->
  serTransactions (coinbaseTx r w) = Throw RangeError.
Proof.
  intros Hr.
  unfold serTransactions, coinbaseTx.
  cbn [Transaction.version Transaction.vin Transaction.vout Transaction.locktime for_of].
  unfold serTransactions_vin, serTransactions_vout.
  cbn [Input.txid Input.vout Input.scriptsig Input.sequence
       Prevout.value Prevout.scriptpubkey].
  destruct (ito64b_dichotomy r) as [[_ H]|[-> _]]; [contradiction|].
  vm_compute. reflexivity.
Qed.

Lemma coinbaseBody_length (r : Z) (c : bytes) :
  List.length c = 32%nat -> List.length (coinbaseBody r c) = 148%nat.
Proof.
  intros Hl. unfold coinbaseBody.
  rewrite !length_app, Hl, le_bytes_length, repeat_length. reflexivity.
Qed.

(** X18: the coinbase transaction built for a reward that fits 64 bits
    and a 32-octet commitment always carries a witness; its base
    serialization is version ‖ body ‖ lock time, 156 octets, and its
    witness-inclusive serialization is the same with the marker and flag
    after the version and the one-item stack of 32 zero octets before the
    lock time, 192 octets; the body ends with the commitment behind the
    six octets [6a 24 aa 21 a9 ed].  A reward outside 64 bits makes the
    base serialization raise a range error. *)
Theorem coinbase_serializations (r : Z) (c : bytes) :
  octets c -> List.length c = 32%nat ->
  let cb := coinbaseTx r (to_hex c) in
  chkSegwit cb = true /\
  (u64 r ->
     serTransactions cb = Ok (le_bytes 4 1 ++ coinbaseBody r c ++ le_bytes 4 0) /\
     segwitSerialize cb
     = Ok (le_bytes 4 1 ++ [0; 1] ++ coinbaseBody r c
           ++ ([1; 32] ++ repeat 0 32) ++ le_bytes 4 0) /\
     List.length (le_bytes 4 1 ++ coinbaseBody r c ++ le_bytes 4 0) = 156%nat /\
     List.length (le_bytes 4 1 ++ [0; 1] ++ coinbaseBody r c
                  ++ ([1; 32] ++ repeat 0 32) ++ le_bytes 4 0) = 192%nat /\
     le_value (le_bytes 8 r) = r) /\
  (~ u64 r -> serTransactions cb = Throw RangeError).
Proof.
  intros Hc Hl. cbn zeta. repeat apply conj.
  - reflexivity.
  - intros Hr. repeat apply conj.
    + now apply coinbase_base.
    + now apply coinbase_segwit.
    + rewrite !length_app, coinbaseBody_length by exact Hl. reflexivity.
    + rewrite !length_app, coinbaseBody_length by exact Hl. reflexivity.
    + apply le_value_le_bytes. unfold u64 in Hr.
      change (2 ^ (8 * Z.of_nat 8)) with 18446744073709551616. lia.
  - apply coinbase_overflow.
Qed.

Lemma coinbase_serializations_witness :
  chkSegwit (coinbaseTx 1250000000 (to_hex (repeat 7 32))) = true /\
  serTransactions (coinbaseTx 1250000000 (to_hex (repeat 7 32)))
  = Ok (le_bytes 4 1 ++ coinbaseBody 1250000000 (repeat 7 32) ++ le_bytes 4 0).
Proof.
  destruct (coinbase_serializations 1250000000 (repeat 7 32)) as (H1 & H2 & _).
  - apply Forall_forall. intros x Hx. apply repeat_spec in Hx. lia.
  - reflexivity.
  - split; [exact H1|]. apply H2. unfold u64. lia.
Defined.

(** ** The mining pipeline *)

Lemma Ok_eq {A : Type} (a b : A) : Ok a = Ok b -> a = b.
Proof. intros H. now injection H. Qed.


Lemma meetsTarget_fields (bh : BlockHeader) (b : bool) :
  meetsTarget bh = Ok b ->
  u32 (BlockHeader.version bh) /\ u32 (BlockHeader.timestamp bh) /\
  u32 (BlockHeader.bits bh) /\ u32 (BlockHeader.nonce bh).
Proof.
  unfold meetsTarget, blockHeaderSerialdata.
  destruct (iTo32b_dichotomy (BlockHeader.version bh)) as [[[b1 ->] H1]|[-> _]];
    cbn [bind]; [|discriminate].
  destruct (iTo32b_dichotomy (BlockHeader.timestamp bh)) as [[[b2 ->] H2]|[-> _]];
    cbn [bind]; [|discriminate].
  destruct (iTo32b_dichotomy (BlockHeader.bits bh)) as [[[b3 ->] H3]|[-> _]];
    cbn [bind]; [|discriminate].
  destruct (iTo32b_dichotomy (BlockHeader.nonce bh)) as [[[b4 ->] H4]|[-> _]];
    cbn [bind]; [|discriminate].
  intros _. exact (conj H1 (conj H2 (conj H3 H4))).
Qed.

(** A successful search changes the nonce only and leaves a header that
    meets the target. *)
Lemma proofOfWork_true_inv (fuel : nat) : forall bh bh' : BlockHeader,
  proofOfWork fuel bh = (Ok true, bh') ->
  bh' = set_nonce bh (BlockHeader.nonce bh') /\ meetsTarget bh' = Ok true.
Proof.
  induction fuel as [|fuel IH]; intros bh bh' H; [discriminate|].
  cbn [proofOfWork] in H.
  destruct (meetsTarget bh) as [[|]| |] eqn:E; try discriminate.
  - injection H as <-. now rewrite set_nonce_nonce.
  - destruct ((BlockHeader.nonce bh <? 0) || (BlockHeader.nonce bh >? 4294967295));
      [discriminate|].
    apply IH in H. exact H.
Qed.

(** X5: the [return false] of [proofOfWork] is unreachable: a nonce
    outside the 32-bit domain is caught by the header serializer before
    the domain test of the loop can see it.  No header and no amount of
    fuel give [false], and [miningFunction] therefore never ends without
    either writing its output or raising. *)
Theorem search_never_reports_failure :
  (forall fuel bh, fst (proofOfWork fuel bh) <> Ok false) /\
  (forall timestamp files fuel, miningFunction timestamp files fuel <> Ok None).
Proof.
  split; [intros fuel bh; apply proofOfWork_no_false|].
  intros timestamp files fuel. unfold miningFunction.
  destruct (prioritize files) as [p| |]; cbn [bind]; try discriminate.
  destruct (asInteger (fst (fst p))) as [z|].
  2:{ destruct (witnessMerk files); cbn [bind]; discriminate. }
  destruct (conibaseCreate files z) as [cb| |]; cbn [bind]; try discriminate.
  destruct (serTransactions cb) as [ser| |]; cbn [bind]; try discriminate.
  destruct (newMerkTree _) as [[root|]| |]; cbn [bind]; try discriminate.
  destruct (proofOfWork fuel _) as [[[|]| |] bh'] eqn:E; try discriminate.
  - destruct (blockHeaderSerialdata bh'); cbn [bind]; try discriminate.
    destruct (segwitSerialize cb); cbn [bind]; discriminate.
  - exfalso. refine (proofOfWork_no_false fuel _ _). rewrite E. reflexivity.
Qed.



(** X20: when [miningFunction] writes its output, the text is three
    parts separated by line feeds: the hexadecimal form of the 80-octet
    header, that of the witness-inclusive coinbase serialization, and the
    ids of the block, the coinbase id first and then the accepted ids in
    selection order.  The header written has version 7, the start time,
    the zero previous hash and the fixed bits, meets the target, and its
    Merkle root field holds the classic Merkle root over those ids; the
    coinbase pays the integer that [prioritize] returned and commits to
    what [witnessMerk] returned. *)
Theorem miningFunction_output (timestamp : Z) (files : list Transaction) (fuel : nat)
    (text : string) :
  miningFunction timestamp files fuel = Ok (Some text) ->
  exists r ids wids reward commit cbId bh,
    prioritize files = Ok (r, ids, wids) /\
    asInteger r = Some reward /\ u64 reward /\
    witnessMerk files = Ok (to_hex commit) /\ List.length commit = 32%nat /\
    txID (coinbaseTx reward (to_hex commit)) = Ok cbId /\
    BlockHeader.version bh = 7 /\ BlockHeader.timestamp bh = timestamp /\
    BlockHeader.prev_block_hash bh = zeros64 /\ BlockHeader.bits bh = 520159231 /\
    merkleRoot_spec (cbId :: ids) = Some (from_hex (BlockHeader.merkle_root bh)) /\
    meetsTarget bh = Ok true /\
    List.length (headerVerbatim bh) = 80%nat /\
    text = (to_hex (headerVerbatim bh) ++ newline
            ++ to_hex (coinbaseWire reward commit) ++ newline
            ++ join (cbId :: ids))%string.
Proof.
  unfold miningFunction. intros H.
  destruct (prioritize files) as [[[r ids] wids]| |] eqn:Hp; cbn [bind] in H;
    try discriminate.
  cbn [fst snd] in H.
  destruct (asInteger r) as [reward|] eqn:Hr.
  2:{ destruct (witnessMerk files); cbn [bind] in H; discriminate. }
  destruct (witnessMerk_value files _ _ _ Hp) as (d & _ & Hw).
  set (commit := doubleHash (d ++ repeat 0 32)) in *.
  assert (Hco : octets commit) by (unfold commit, doubleHash; apply sha_octets).
  assert (Hcl : List.length commit = 32%nat)
    by (unfold commit, doubleHash; apply sha_length).
  unfold conibaseCreate in H. rewrite Hw in H. cbn [bind] in H.
  destruct (ito64b_dichotomy reward) as [[_ Hu]|[_ Hu]].
  2:{ rewrite (coinbase_overflow _ _ Hu) in H. discriminate. }
  rewrite (coinbase_base reward commit Hu Hco Hcl) in H. cbn [bind] in H.
  set (base := le_bytes 4 1 ++ coinbaseBody reward commit ++ le_bytes 4 0) in *.
  set (cbId := to_hex (reversebyte (sha (sha base)))) in *.
  destruct (newMerkTree_root (cbId :: ids)) as (root & Hn & Hs & Ho & H1 & H2);
    [discriminate|].
  rewrite Hn in H. cbn [bind] in H.
  assert (Hrl : List.length (node_data root) = 32%nat).
  { destruct ids as [|i ids'].
    - rewrite (H1 cbId eq_refl). unfold cbId, reversebyte.
      rewrite from_hex_to_hex by (apply octets_rev, sha_octets).
      now rewrite rev_involutive, sha_length.
    - apply H2. cbn. lia. }
  destruct (proofOfWork fuel _) as [[[|]| |] bh] eqn:Epow; try discriminate.
  destruct (proofOfWork_true_inv _ _ _ Epow) as [Hbh Hm].
  destruct (meetsTarget_fields bh true Hm) as (Fv & Ft & Fb & Fn).
  rewrite (blockHeaderSerialdata_in_range bh Fv Ft Fb Fn) in H. cbn [bind] in H.
  rewrite (coinbase_segwit reward commit Hu Hco Hcl) in H. cbn [bind] in H.
  apply Ok_eq, Some_eq in H. subst text.
  exists r, ids, wids, reward, commit, cbId, bh.
  assert (Hmr : from_hex (BlockHeader.merkle_root bh) = node_data root).
  { rewrite Hbh. cbn [set_nonce set_merkle_root Bh BlockHeader.merkle_root].
    now apply from_hex_to_hex. }
  split; [reflexivity|]. split; [exact Hr|]. split; [exact Hu|].
  split; [exact Hw|]. split; [exact Hcl|].
  split.
  { unfold txID. rewrite (coinbase_base reward commit Hu Hco Hcl). reflexivity. }
  split; [rewrite Hbh; reflexivity|]. split; [rewrite Hbh; reflexivity|].
  split; [rewrite Hbh; reflexivity|]. split; [rewrite Hbh; reflexivity|].
  split; [rewrite Hmr; exact Hs|].
  split; [exact Hm|].
  split.
  { unfold headerVerbatim. rewrite !length_app, !le_bytes_length, Hmr, Hrl.
    rewrite Hbh. reflexivity. }
  reflexivity.
Qed.

Lemma miningFunction_output_witness :
  exists text bh,
    miningFunction luckyTime [txPaying; txWitness] 1 = Ok (Some text) /\
    meetsTarget bh = Ok true /\ BlockHeader.timestamp bh = luckyTime /\
    String.length (to_hex (headerVerbatim bh)) = 160%nat.
Proof.
  assert (E : exists text, miningFunction luckyTime [txPaying; txWitness] 1 = Ok (Some text))
    by (eexists; vm_compute; reflexivity).
  destruct E as [text E]. exists text.
  destruct (miningFunction_output luckyTime _ 1 text E)
    as (r & ids & wids & reward & commit & cbId & bh & H).
  exists bh. destruct H as (_ & _ & _ & _ & _ & _ & _ & Ht & _ & _ & _ & Hm & Hl & _).
  repeat split; try assumption. now rewrite to_hex_length, Hl.
Defined.
